(** * Subdomain enumeration: a shallow embedding of [subdomain_enumeration.py]

    The development follows the class [SubdomainEnumerator]:
    - [Text]       : the string operations [load_wordlist] relies on
                     ([str.strip], [str.lower], line iteration);
    - [Py]         : a small state-and-exception monad with an effect log,
                     used to transcribe [check_subdomain] statement by
                     statement;
    - [Enumerator] : the object state, [load_wordlist], [check_subdomain],
                     [display_summary], [save_results];
    - [Pool]       : the [ThreadPoolExecutor] run of [enumerate_subdomains]
                     (lines 177 to 188) as an interleaving of atomic steps;
    - [Spec]       : the vocabulary of the properties;
    - [Console]    : [check_subdomain] with a [print] that can fail;
    - [Unicode]    : [load_wordlist] on Unicode text, over the
                     interpreter's codec and character tables;
    - [Scenario]   : concrete environments.

    Host names, URLs and headers are modelled as [string]; [Text] has
    the string operations on the ASCII range, [Unicode] has them on code
    points.  In [Enumerator] and [Pool] a [print] is an event that always
    succeeds; [Console] has the probe with a [print] that may raise.
    Python integers are unbounded and modelled as [Z]. *)

From Stdlib Require Import ZArith Ascii.
From stdpp Require Import base tactics option list gmap sets strings sorting.

Local Open Scope Z_scope.

(* ===================================================================== *)
(** ** Text operations *)
(* ===================================================================== *)

Module Text.

(** [str.isspace] on the ASCII range: TAB, LF, VT, FF, CR, the four
    separators FS, GS, RS, US, and the blank. *)
Definition isspace (c : ascii) : bool :=
  let n := N_of_ascii c in
  ((9 <=? n)%N && (n <=? 13)%N) || ((28 <=? n)%N && (n <=? 32)%N).

Definition isupper (c : ascii) : bool :=
  let n := N_of_ascii c in (65 <=? n)%N && (n <=? 90)%N.

(** [str.lower], character by character. *)
Definition lower_char (c : ascii) : ascii :=
  if isupper c then ascii_of_N (N_of_ascii c + 32) else c.

Fixpoint lower (s : string) : string :=
  match s with
  | EmptyString => EmptyString
  | String c s' => String (lower_char c) (lower s')
  end.

Fixpoint lstrip (s : string) : string :=
  match s with
  | EmptyString => EmptyString
  | String c s' => if isspace c then lstrip s' else s
  end.

Fixpoint rstrip (s : string) : string :=
  match s with
  | EmptyString => EmptyString
  | String c s' =>
      match rstrip s' with
      | EmptyString => if isspace c then EmptyString else String c EmptyString
      | r => String c r
      end
  end.

(** [str.strip()] with no argument. *)
Definition strip (s : string) : string := lstrip (rstrip s).

(** Truthiness of a [str]: the empty string is falsy. *)
Definition truthy (s : string) : bool :=
  match s with EmptyString => false | _ => true end.

Definition LF : ascii := ascii_of_N 10.
Definition CR : ascii := ascii_of_N 13.

(** The file is opened in text mode with the default [newline=None]:
    CR LF and a lone CR are both read as LF. *)
Fixpoint translate_newlines (s : string) : string :=
  match s with
  | EmptyString => EmptyString
  | String c s' =>
      if Ascii.eqb c CR then
        match s' with
        | String c' s'' =>
            if Ascii.eqb c' LF then String LF (translate_newlines s'')
            else String LF (translate_newlines s')
        | EmptyString => String LF EmptyString
        end
      else String c (translate_newlines s')
  end.

(** [for line in f]: each line keeps its terminating LF; a last line
    without terminator is yielded as it is. *)
Fixpoint iter_lines (s : string) : list string :=
  match s with
  | EmptyString => []
  | String c s' =>
      if Ascii.eqb c LF then String c EmptyString :: iter_lines s'
      else match iter_lines s' with
           | [] => [String c EmptyString]
           | l :: ls => String c l :: ls
           end
  end.

(** First and last character tests, used to state "no leading or
    trailing whitespace" without mentioning [strip]. *)
Definition starts_with_space (s : string) : bool :=
  match s with
  | EmptyString => false
  | String c _ => isspace c
  end.

Fixpoint ends_with_space (s : string) : bool :=
  match s with
  | EmptyString => false
  | String c EmptyString => isspace c
  | String _ s' => ends_with_space s'
  end.

Fixpoint has_upper (s : string) : bool :=
  match s with
  | EmptyString => false
  | String c s' => isupper c || has_upper s'
  end.

End Text.

(* ===================================================================== *)
(** ** Python control flow: state, exceptions and an effect log *)
(* ===================================================================== *)

Module Py.

(** The exception classes the handlers of [check_subdomain] tell apart.
    [socket.gaierror] and [requests.RequestException] are both
    subclasses of [Exception]; [OtherException] stands for every other
    subclass of [Exception]. *)
Inductive exn : Type :=
| gaierror
| RequestException
| OtherException.

Definition is_gaierror (e : exn) : bool :=
  match e with gaierror => true | _ => false end.

Definition is_RequestException (e : exn) : bool :=
  match e with RequestException => true | _ => false end.

Definition is_Exception (e : exn) : bool := true.

(** How a call ends. *)
Inductive outcome (A : Type) : Type :=
| Returns (a : A)
| Raises (e : exn).
Global Arguments Returns {A} a.
Global Arguments Raises {A} e.

Section Monad.
Context {St : Type}.

Definition M (A : Type) : Type := St → outcome A * St.

Definition ret {A} (a : A) : M A := λ s, (Returns a, s).

Definition bind {A B} (m : M A) (k : A → M B) : M B :=
  λ s, match m s with
       | (Returns a, s') => k a s'
       | (Raises e, s') => (Raises e, s')
       end.

Definition raise {A} (e : exn) : M A := λ s, (Raises e, s).

(** A call into the environment whose outcome is already known. *)
Definition lift {A} (o : outcome A) : M A := λ s, (o, s).

Definition gets {A} (f : St → A) : M A := λ s, (Returns (f s), s).

Definition modify (f : St → St) : M unit := λ s, (Returns tt, f s).

(** [try: body except cls: handler].  Whatever the body did to the
    state before raising stays done. *)
Definition try_except {A} (body : M A) (cls : exn → bool) (handler : M A) : M A :=
  λ s, match body s with
       | (Raises e, s') => if cls e then handler s' else (Raises e, s')
       | r => r
       end.

(** [with self.lock: body].  The lock makes the block one atomic step
    of the interleaving in [Pool]; inside one thread it is the body. *)
Definition with_lock {A} (body : M A) : M A := body.
End Monad.

Global Arguments M : clear implicits.

End Py.

Notation "x <~ m ;; k" := (Py.bind m (λ x, k))
  (at level 100, m at next level, right associativity, only parsing).
Notation "m ;;; k" := (Py.bind m (λ _, k))
  (at level 100, right associativity, only parsing).

(* ===================================================================== *)
(** ** The enumerator object *)
(* ===================================================================== *)

Module Enumerator.
Import Py.

(** The [result] dictionary built by [check_subdomain]; [None] is the
    Python [None]. *)
Record result : Type := mk_result {
  subdomain : string;
  http_accessible : bool;
  https_accessible : bool;
  http_status : option Z;
  https_status : option Z;
  ip_address : option string;
  server : option string;
  discovered_at : string
}.

Global Instance result_eq_dec : EqDecision result.
Proof. solve_decision. Defined.

(** [self.stats]. *)
Record stats_t : Type := mk_stats {
  tested : Z;
  discovered : Z;
  errors : Z;
  start_time : Z
}.

(** The fields of [SubdomainEnumerator] set by [__init__]; the
    [requests.Session] lives in the environment below. *)
Record enumerator : Type := mk_enumerator {
  domain : string;
  wordlist_file : string;
  max_threads : Z;
  timeout : Z;
  output_file : option string;
  verbose : bool;
  discovered_subdomains : list result;
  stats : stats_t
}.

(** [__init__]: no host discovered, all counters at zero. *)
Definition init (domain wordlist_file : string) (threads timeout : Z)
    (output_file : option string) (verbose : bool) (now : Z) : enumerator :=
  {| domain := domain; wordlist_file := wordlist_file; max_threads := threads;
     timeout := timeout; output_file := output_file; verbose := verbose;
     discovered_subdomains := [];
     stats := {| tested := 0; discovered := 0; errors := 0; start_time := now |} |}.

(** A response as [check_subdomain] reads it: [response.status_code] and
    the [Server] entry of [response.headers], if there is one. *)
Record response : Type := mk_response {
  status_code : Z;
  header_Server : option string
}.

(** [response.headers.get('Server', 'Unknown')]. *)
Definition headers_get_Server (resp : response) : string :=
  default "Unknown" (header_Server resp).

(** Everything outside the process: the resolver, the HTTP session
    (keyed by URL, so the two schemes answer independently) and the
    clock read when the probe of a host starts.  A call of the session
    is one answer: the redirects it follows on the way
    ([allow_redirects=True]) are inside the call.  The clock is given per
    host; properties that compare runs speak of hosts and counters, not
    of [discovered_at]. *)
Record environment : Type := mk_environment {
  gethostbyname : string → outcome string;
  session_get : string → outcome response;
  now_isoformat : string → string
}.

(** What a thread does that the outside can observe. *)
Inductive event : Type :=
| Ev_tested
| Ev_gethostbyname (host : string)
| Ev_get (url : string)
| Ev_append (r : result)
| Ev_discovered
| Ev_errors
| Ev_print_found (r : result)
| Ev_print_error (host : string).

Global Instance event_eq_dec : EqDecision event.
Proof. solve_decision. Defined.

(** The state threaded through the methods: the object and the log of
    events, oldest first. *)
Record world : Type := mk_world {
  self : enumerator;
  log : list event
}.

Definition emit (e : event) : M world unit :=
  modify (λ w, {| self := self w; log := log w ++ [e] |}).

Definition update_self (f : enumerator → enumerator) : M world unit :=
  modify (λ w, {| self := f (self w); log := log w |}).

Definition set_stats (f : stats_t → stats_t) (o : enumerator) : enumerator :=
  {| domain := domain o; wordlist_file := wordlist_file o;
     max_threads := max_threads o; timeout := timeout o;
     output_file := output_file o; verbose := verbose o;
     discovered_subdomains := discovered_subdomains o;
     stats := f (stats o) |}.

(** [self.stats['tested'] += 1] and its two siblings. *)
Definition incr_tested (s : stats_t) : stats_t :=
  {| tested := tested s + 1; discovered := discovered s;
     errors := errors s; start_time := start_time s |}.

Definition incr_discovered (s : stats_t) : stats_t :=
  {| tested := tested s; discovered := discovered s + 1;
     errors := errors s; start_time := start_time s |}.

Definition incr_errors (s : stats_t) : stats_t :=
  {| tested := tested s; discovered := discovered s;
     errors := errors s + 1; start_time := start_time s |}.

(** [self.discovered_subdomains.append(result)]. *)
Definition append_discovered (r : result) (o : enumerator) : enumerator :=
  {| domain := domain o; wordlist_file := wordlist_file o;
     max_threads := max_threads o; timeout := timeout o;
     output_file := output_file o; verbose := verbose o;
     discovered_subdomains := discovered_subdomains o ++ [r];
     stats := stats o |}.

(* ------------------------------------------------------------------- *)
(** *** [load_wordlist] *)

(** How opening and reading [self.wordlist_file] ends. *)
Inductive file_read : Type :=
| Read_ok (content : string)
| File_not_found
| Read_failed.

(** How [load_wordlist] ends: it returns a list, or leaves the process
    through [sys.exit(1)]. *)
Inductive load_result : Type :=
| Loaded (unique_subdomains : list string)
| Sys_exit (code : Z).

(** [[line.strip().lower() for line in f if line.strip()]]. *)
Definition read_subdomains (content : string) : list string :=
  (λ line, Text.lower (Text.strip line)) <$>
    filter (λ line, Is_true (Text.truthy (Text.strip line)))
           (Text.iter_lines (Text.translate_newlines content)).

(** [list(set(subdomains))]: the elements of the set, in the order the
    set enumerates them. *)
Definition list_of_set (subdomains : list string) : list string :=
  elements (list_to_set subdomains : gset string).

Definition load_wordlist (f : file_read) : load_result :=
  match f with
  | Read_ok content => Loaded (list_of_set (read_subdomains content))
  | File_not_found => Sys_exit 1
  | Read_failed => Loaded []
  end.

(* ------------------------------------------------------------------- *)
(** *** [check_subdomain] *)

(** [result['ip_address'] = ip_address]. *)
Definition set_ip_address (r : result) (ip : string) : result :=
  {| subdomain := subdomain r;
     http_accessible := http_accessible r; https_accessible := https_accessible r;
     http_status := http_status r; https_status := https_status r;
     ip_address := Some ip; server := server r;
     discovered_at := discovered_at r |}.

(** The three assignments after a successful HTTP fetch. *)
Definition set_http (r : result) (resp : response) : result :=
  {| subdomain := subdomain r;
     http_accessible := true; https_accessible := https_accessible r;
     http_status := Some (status_code resp); https_status := https_status r;
     ip_address := ip_address r; server := Some (headers_get_Server resp);
     discovered_at := discovered_at r |}.

(** [not result['server'] or result['server'] == 'Unknown']. *)
Definition server_missing (srv : option string) : bool :=
  match srv with
  | None => true
  | Some s => negb (Text.truthy s) || bool_decide (s = "Unknown")
  end.

(** The assignments after a successful HTTPS fetch. *)
Definition set_https (r : result) (resp : response) : result :=
  {| subdomain := subdomain r;
     http_accessible := http_accessible r; https_accessible := true;
     http_status := http_status r; https_status := Some (status_code resp);
     ip_address := ip_address r;
     server := if server_missing (server r)
               then Some (headers_get_Server resp) else server r;
     discovered_at := discovered_at r |}.

Section Probe.
Variable env : environment.

Definition call_gethostbyname (host : string) : M world string :=
  emit (Ev_gethostbyname host) ;;; lift (gethostbyname env host).

Definition call_session_get (url : string) : M world response :=
  emit (Ev_get url) ;;; lift (session_get env url).

(** Lines 92 to 106: the host name, the all-negative [result], and the
    [tested] counter. *)
Definition probe_enter (sub : string) : M world (string * result) :=
  d <~ gets (λ w, domain (self w)) ;;
  let full_subdomain := sub +:+ "." +:+ d in
  let result :=
    {| subdomain := full_subdomain;
       http_accessible := false; https_accessible := false;
       http_status := None; https_status := None;
       ip_address := None; server := None;
       discovered_at := now_isoformat env full_subdomain |} in
  with_lock (update_self (set_stats incr_tested) ;;; emit Ev_tested) ;;;
  ret (full_subdomain, result).

(** Lines 108 to 162: the [try] block, its handler and the final
    [return None].  The calls that can raise are the resolver call and
    the two fetches; [print] is an event of the log and is taken not to
    raise. *)
Definition probe_body (full_subdomain : string) (result : result)
    : M world (option Enumerator.result) :=
  try_except
    ((* resolve first; [return None] when the name does not exist *)
     resolved <~ try_except
       (ip_address <~ call_gethostbyname full_subdomain ;;
        ret (Some (set_ip_address result ip_address)))
       is_gaierror
       (ret None) ;;
     match resolved with
     | None => ret None
     | Some result =>
         (* test HTTP *)
         result <~ try_except
           (response <~ call_session_get ("http://" +:+ full_subdomain) ;;
            ret (set_http result response))
           is_RequestException
           (ret result) ;;
         (* test HTTPS *)
         result <~ try_except
           (response <~ call_session_get ("https://" +:+ full_subdomain) ;;
            ret (set_https result response))
           is_RequestException
           (ret result) ;;
         if http_accessible result || https_accessible result then
           with_lock (update_self (append_discovered result) ;;;
                      emit (Ev_append result) ;;;
                      update_self (set_stats incr_discovered) ;;;
                      emit Ev_discovered) ;;;
           emit (Ev_print_found result) ;;;
           ret (Some result)
         else ret None
     end)
    is_Exception
    (with_lock (update_self (set_stats incr_errors) ;;; emit Ev_errors) ;;;
     v <~ gets (λ w, verbose (self w)) ;;
     (if v : bool then emit (Ev_print_error full_subdomain) else ret tt) ;;;
     ret None).

Definition check_subdomain (sub : string) : M world (option result) :=
  entered <~ probe_enter sub ;;
  probe_body entered.1 entered.2.
End Probe.

(* ------------------------------------------------------------------- *)
(** *** [display_summary] and [save_results] *)

(** [sorted(..., key=lambda x: x['subdomain'])]: a stable sort on the
    host name, strings compared character by character. *)
Fixpoint insert_by_subdomain (x : result) (l : list result) : list result :=
  match l with
  | [] => [x]
  | y :: l' =>
      if String.leb (subdomain x) (subdomain y) then x :: l
      else y :: insert_by_subdomain x l'
  end.

Definition sorted_by_subdomain (l : list result) : list result :=
  foldr insert_by_subdomain [] l.

(** The rows printed under "Discovered Subdomains:", in print order. *)
Definition display_summary (o : enumerator) : list result :=
  match discovered_subdomains o with
  | [] => []
  | _ => sorted_by_subdomain (discovered_subdomains o)
  end.

(** [str.endswith]. *)
Definition endswith (s suffix : string) : bool :=
  String.prefix (String.rev suffix) (String.rev s).

(** What [save_results] writes, by format.  The constant entries of the
    JSON document and the header lines of the text file are left out;
    a CSV file without rows stays empty. *)
Inductive saved_file : Type :=
| Json_file (domain : string) (statistics : stats_t) (entries : list result)
| Csv_file (rows : list result)
| Text_file (lines : list string).

Definition save_results (o : enumerator) (output_file : string) : saved_file :=
  if endswith output_file ".json" then
    Json_file (domain o) (stats o) (discovered_subdomains o)
  else if endswith output_file ".csv" then
    Csv_file (discovered_subdomains o)
  else
    Text_file (subdomain <$> discovered_subdomains o).

(** The host names of a saved file, in file order. *)
Definition saved_hosts (f : saved_file) : list string :=
  match f with
  | Json_file _ _ entries => subdomain <$> entries
  | Csv_file rows => subdomain <$> rows
  | Text_file lines => lines
  end.

End Enumerator.

(* ===================================================================== *)
(** ** The thread pool run of [enumerate_subdomains] *)
(* ===================================================================== *)

Module Pool.
Import Py Enumerator.

(** A worker thread of the executor.  It is idle, or it has taken a
    work item and called [check_subdomain] ([Called]), or it is past the
    [tested] increment with its local [full_subdomain] and [result]
    ([Probing]). *)
Inductive worker : Type :=
| Idle
| Called (sub : string)
| Probing (sub : string) (full_subdomain : string) (result : result).

Definition worker_task (w : worker) : option string :=
  match w with
  | Idle => None
  | Called sub => Some sub
  | Probing sub _ _ => Some sub
  end.

Definition is_probing (w : worker) : option string :=
  match w with
  | Probing sub _ _ => Some sub
  | _ => None
  end.

(** The run: what the list comprehension still has to submit, the work
    queue of the executor, its threads, the futures that are done, in
    completion order (each with the candidate it was submitted for and
    the value or the exception it holds), and the shared object. *)
Record state : Type := mk_state {
  pending : list string;
  work_queue : list string;
  workers : list worker;
  finished : list (string * outcome (option result));
  shared : world
}.

(** Probes in flight: work items taken by a thread and not finished. *)
Definition in_flight (s : state) : list string := omap worker_task (workers s).

(** Probes past their [tested] increment and not finished. *)
Definition counted (s : state) : list string := omap is_probing (workers s).

(** [ThreadPoolExecutor(max_workers=self.max_threads)]. *)
Definition max_workers (s : state) : Z := max_threads (self (shared s)).

(** One atomic step of one thread.  [Submit_spawn] and [Submit_reuse]
    are [executor.submit] in the main thread: the item is queued, and a
    new thread is started only below [max_workers]; an existing thread
    may be left to pick the item up instead.  [Take], [Enter] and
    [Finish] are steps of worker [i]. *)
Inductive action : Type :=
| Submit_spawn
| Submit_reuse
| Take (i : nat)
| Enter (i : nat)
| Finish (i : nat).

Section Run.
Variable env : environment.

Definition exec (a : action) (s : state) : option state :=
  match a with
  | Submit_spawn =>
      match pending s with
      | c :: p =>
          if bool_decide (Z.of_nat (length (workers s)) < max_workers s) then
            Some {| pending := p; work_queue := work_queue s ++ [c];
                    workers := workers s ++ [Idle];
                    finished := finished s; shared := shared s |}
          else None
      | [] => None
      end
  | Submit_reuse =>
      match pending s, workers s with
      | c :: p, _ :: _ =>
          Some {| pending := p; work_queue := work_queue s ++ [c];
                  workers := workers s;
                  finished := finished s; shared := shared s |}
      | _, _ => None
      end
  | Take i =>
      match workers s !! i, work_queue s with
      | Some Idle, c :: q =>
          Some {| pending := pending s; work_queue := q;
                  workers := <[i := Called c]> (workers s);
                  finished := finished s; shared := shared s |}
      | _, _ => None
      end
  | Enter i =>
      match workers s !! i with
      | Some (Called c) =>
          match probe_enter env c (shared s) with
          | (Returns (full, r), w') =>
              Some {| pending := pending s; work_queue := work_queue s;
                      workers := <[i := Probing c full r]> (workers s);
                      finished := finished s; shared := w' |}
          | (Raises e, w') =>
              Some {| pending := pending s; work_queue := work_queue s;
                      workers := <[i := Idle]> (workers s);
                      finished := finished s ++ [(c, Raises e)]; shared := w' |}
          end
      | _ => None
      end
  | Finish i =>
      match workers s !! i with
      | Some (Probing c full r) =>
          match probe_body env full r (shared s) with
          | (o, w') =>
              Some {| pending := pending s; work_queue := work_queue s;
                      workers := <[i := Idle]> (workers s);
                      finished := finished s ++ [(c, o)]; shared := w' |}
          end
      | _ => None
      end
  end.

(** A schedule is the sequence of steps the threads happen to take. *)
Fixpoint run (schedule : list action) (s : state) : option state :=
  match schedule with
  | [] => Some s
  | a :: rest =>
      match exec a s with
      | Some s' => run rest s'
      | None => None
      end
  end.

(** The run is over when everything was submitted, the queue is empty
    and no probe is in flight: the [with] block is left and
    [display_summary] runs. *)
Definition completed (s : state) : bool :=
  match pending s, work_queue s, in_flight s with
  | [], [], [] => true
  | _, _, _ => false
  end.
End Run.

(** The state in which the executor is created. *)
Definition start (o : enumerator) (subdomains : list string) : state :=
  {| pending := subdomains; work_queue := []; workers := [];
     finished := []; shared := {| self := o; log := [] |} |}.

(** The schedule of a single worker that probes the candidates one
    after the other, in submission order. *)
Fixpoint one_by_one (first : bool) (subdomains : list string) : list action :=
  match subdomains with
  | [] => []
  | _ :: rest =>
      (if first then Submit_spawn else Submit_reuse)
        :: Take 0 :: Enter 0 :: Finish 0 :: one_by_one false rest
  end.

End Pool.

(* ===================================================================== *)
(** ** Vocabulary of the properties *)
(* ===================================================================== *)

(** The words the properties are stated in, read off the environment:
    which calls succeed, which fail in the way the code expects, and
    which fail otherwise. *)
Module Spec.
Import Py Enumerator.

(** What the data model asks of a candidate. *)
Record candidate (x : string) : Prop := mk_candidate {
  cand_nonempty : x ≠ "";
  cand_no_upper : Text.has_upper x = false;
  cand_lower : Text.lower x = x;
  cand_no_leading : Text.starts_with_space x = false;
  cand_no_trailing : Text.ends_with_space x = false;
  cand_stripped : Text.strip x = x
}.

Definition http_url (host : string) : string := "http://" +:+ host.
Definition https_url (host : string) : string := "https://" +:+ host.

Definition succeeded {A} (o : outcome A) : bool :=
  match o with Returns _ => true | Raises _ => false end.

Section Env.
Variable env : environment.

(** Name resolution succeeded. *)
Definition resolved (host : string) : bool :=
  succeeded (gethostbyname env host).

(** Name resolution failed as a resolver failure, [socket.gaierror]. *)
Definition resolution_failed (host : string) : bool :=
  match gethostbyname env host with
  | Raises e => is_gaierror e
  | Returns _ => false
  end.

(** Name resolution failed in some other way. *)
Definition resolution_fault (host : string) : bool :=
  match gethostbyname env host with
  | Raises e => negb (is_gaierror e)
  | Returns _ => false
  end.

(** The fetch of [url] succeeded. *)
Definition fetched (url : string) : bool :=
  succeeded (session_get env url).

(** The fetch of [url] failed as a fetch failure,
    [requests.RequestException]. *)
Definition fetch_failed (url : string) : bool :=
  match session_get env url with
  | Raises e => is_RequestException e
  | Returns _ => false
  end.

(** The fetch of [url] failed in some other way. *)
Definition fetch_fault (url : string) : bool :=
  match session_get env url with
  | Raises e => negb (is_RequestException e)
  | Returns _ => false
  end.

(** A failure that is neither a resolution failure nor a fetch
    failure occurs in the probe of [host]: in the resolution, or in
    the HTTP fetch, or in the HTTPS fetch that follows an HTTP fetch
    without such a failure. *)
Definition unexpected_failure (host : string) : bool :=
  resolution_fault host
  || resolved host && (fetch_fault (http_url host) || fetch_fault (https_url host)).

(** How the probe of [host] ends. *)
Inductive verdict : Type :=
| Unresolved
| Faulted
| Unreachable
| Found.

Definition verdict_of (host : string) : verdict :=
  if resolution_failed host then Unresolved
  else if unexpected_failure host then Faulted
  else if fetched (http_url host) || fetched (https_url host) then Found
  else Unreachable.

(** The [result] dictionary when the probe of [host] gets to the
    test at line 139. *)
Definition found_result (host : string) (r : result) : result :=
  let r1 := match gethostbyname env host with
            | Returns ip => set_ip_address r ip
            | Raises _ => r
            end in
  let r2 := match session_get env (http_url host) with
            | Returns resp => set_http r1 resp
            | Raises _ => r1
            end in
  match session_get env (https_url host) with
  | Returns resp => set_https r2 resp
  | Raises _ => r2
  end.

(** The value [check_subdomain] returns. *)
Definition probe_value (host : string) (r : result) : option result :=
  match verdict_of host with
  | Found => Some (found_result host r)
  | _ => None
  end.

(** The object after the [try] statement. *)
Definition probe_self (host : string) (r : result) (o : enumerator) : enumerator :=
  match verdict_of host with
  | Found => set_stats incr_discovered (append_discovered (found_result host r) o)
  | Faulted => set_stats incr_errors o
  | _ => o
  end.

(** The events of the [try] statement, in order. *)
Definition probe_trace (host : string) (r : result) (verbose : bool) : list event :=
  [Ev_gethostbyname host]
  ++ (if resolved host then
        Ev_get (http_url host)
        :: (if fetch_fault (http_url host) then [] else [Ev_get (https_url host)])
      else [])
  ++ match verdict_of host with
     | Found => [Ev_append (found_result host r); Ev_discovered;
                 Ev_print_found (found_result host r)]
     | Faulted => Ev_errors :: (if verbose then [Ev_print_error host] else [])
     | _ => []
     end.
End Env.

(** The initial [result] of the probe of [full_subdomain]. *)
Definition blank_result (env : environment) (full_subdomain : string) : result :=
  {| subdomain := full_subdomain;
     http_accessible := false; https_accessible := false;
     http_status := None; https_status := None;
     ip_address := None; server := None;
     discovered_at := now_isoformat env full_subdomain |}.

Definition full_name (sub domain : string) : string := sub +:+ "." +:+ domain.

(** Ascending order of host names. *)
Definition ascending (hosts : list string) : Prop := Sorted String.le hosts.

(** How often a counter event occurs in a trace. *)
Definition occurrences (e : event) (trace : list event) : nat :=
  length (filter (λ x, x = e) trace).

(** The probe of candidate [c] under base domain [dom]: the value it
    returns and whether it ends in the [except Exception] handler. *)
Definition value_of (env : environment) (dom c : string) : option result :=
  probe_value env (full_name c dom) (blank_result env (full_name c dom)).

Definition faulted (env : environment) (dom c : string) : bool :=
  unexpected_failure env (full_name c dom).

(** The condition under which the probe of [host] gets its result into
    [discovered_subdomains]. *)
Definition discovers (env : environment) (host : string) : bool :=
  resolved env host
  && (fetched env (http_url host) || fetched env (https_url host))
  && negb (fetch_fault env (http_url host))
  && negb (fetch_fault env (https_url host)).

(** The [Server] header of the response to [url], when there is a
    response and it has one. *)
Definition supplied_Server (env : environment) (url : string) : option string :=
  match session_get env url with
  | Returns resp => header_Server resp
  | Raises _ => None
  end.

(** The response to [url] carries a [Server] header that
    [check_subdomain] keeps: one that is neither empty nor the
    placeholder ['Unknown']. *)
Definition yields_banner (env : environment) (url : string) : bool :=
  match supplied_Server env url with
  | Some h => Text.truthy h && negb (bool_decide (h = "Unknown"))
  | None => false
  end.

(** The states a run of the pool passes through, from a given object and
    candidate list. *)
Definition reachable (env : environment) (o : enumerator) (cs : list string)
    (s : Pool.state) : Prop :=
  ∃ schedule, Pool.run env schedule (Pool.start o cs) = Some s.

(** What every reachable state of a run satisfies, relative to the
    object [o0] and the candidates [cs] it started from. *)
Record run_invariant (env : environment) (o0 : enumerator) (cs : list string)
    (s : Pool.state) : Prop := mk_run_invariant {
  inv_domain : domain (self (Pool.shared s)) = domain o0;
  inv_max_threads : max_threads (self (Pool.shared s)) = max_threads o0;
  inv_locals : ∀ c full r, Pool.Probing c full r ∈ Pool.workers s →
    full = full_name c (domain o0) ∧ r = blank_result env full;
  inv_finished : ∀ c o, (c, o) ∈ Pool.finished s →
    o = Returns (value_of env (domain o0) c);
  inv_discovered_subdomains :
    discovered_subdomains (self (Pool.shared s))
    = discovered_subdomains o0 ++ omap (value_of env (domain o0)) (Pool.finished s).*1;
  inv_tested :
    tested (stats (self (Pool.shared s)))
    = tested (stats o0) + Z.of_nat (length (Pool.finished s))
      + Z.of_nat (length (Pool.counted s));
  inv_discovered :
    discovered (stats (self (Pool.shared s)))
    = discovered (stats o0)
      + Z.of_nat (length (omap (value_of env (domain o0)) (Pool.finished s).*1));
  inv_errors :
    errors (stats (self (Pool.shared s)))
    = errors (stats o0)
      + Z.of_nat (length (filter (λ c, faulted env (domain o0) c = true)
                                 (Pool.finished s).*1));
  inv_candidates :
    cs ≡ₚ Pool.pending s ++ Pool.work_queue s ++ Pool.in_flight s
          ++ (Pool.finished s).*1;
  inv_workers :
    Pool.workers s = [] ∨ Z.of_nat (length (Pool.workers s)) ≤ max_threads o0
}.

End Spec.

(* ===================================================================== *)
(** ** Further vocabulary *)
(* ===================================================================== *)

Module Driver.
Import Py Enumerator Pool.

(** Vocabulary: [check_subdomain] for each candidate in turn, in one
    thread. *)
Definition check_in_turn (env : environment) (cs : list string) (w : world) : world :=
  foldl (λ w c, (check_subdomain env c w).2) w cs.

(** Vocabulary: a line-break character occurs in a string. *)
Fixpoint has_line_break (s : string) : bool :=
  match s with
  | EmptyString => false
  | String c s' => Ascii.eqb c Text.LF || Ascii.eqb c Text.CR || has_line_break s'
  end.

(** Vocabulary: the object with its [verbose] flag set to [vb]. *)
Definition with_verbose (vb : bool) (o : enumerator) : enumerator :=
  {| domain := domain o; wordlist_file := wordlist_file o;
     max_threads := max_threads o; timeout := timeout o;
     output_file := output_file o; verbose := vb;
     discovered_subdomains := discovered_subdomains o;
     stats := stats o |}.

(** A wordlist with a duplicate, an upper-case name, padding and a blank
    line. *)
Definition wordlist_example : string := "www
API
  ghost

www
".

End Driver.

(* ===================================================================== *)
(** ** [check_subdomain] with a console that can fail *)
(* ===================================================================== *)

(** [print] writes to the standard output, and the write can raise (the
    stream is closed, the message cannot be encoded).  Here the two
    [print] calls of [check_subdomain] are calls like the resolver call
    and the fetches: the console says, for each message, whether the
    write returns or raises.  [Enumerator.probe_body] is this body with a
    console that never fails. *)
Module Console.
Import Py Enumerator.

Definition console : Type := event → outcome unit.

Section Probe.
Variable env : environment.
Variable out : console.

(** [print(message)]: the message is logged, then written. *)
Definition call_print (message : event) : M world unit :=
  emit message ;;; lift (out message).

(** Lines 108 to 162, as in [Enumerator.probe_body]; the [print] of line
    152 is inside the [try], after the append, and the [print] of line
    160 is inside the handler. *)
Definition probe_body (full_subdomain : string) (result : result)
    : M world (option Enumerator.result) :=
  try_except
    (resolved <~ try_except
       (ip_address <~ call_gethostbyname env full_subdomain ;;
        ret (Some (set_ip_address result ip_address)))
       is_gaierror
       (ret None) ;;
     match resolved with
     | None => ret None
     | Some result =>
         result <~ try_except
           (response <~ call_session_get env ("http://" +:+ full_subdomain) ;;
            ret (set_http result response))
           is_RequestException
           (ret result) ;;
         result <~ try_except
           (response <~ call_session_get env ("https://" +:+ full_subdomain) ;;
            ret (set_https result response))
           is_RequestException
           (ret result) ;;
         if http_accessible result || https_accessible result then
           with_lock (update_self (append_discovered result) ;;;
                      emit (Ev_append result) ;;;
                      update_self (set_stats incr_discovered) ;;;
                      emit Ev_discovered) ;;;
           call_print (Ev_print_found result) ;;;
           ret (Some result)
         else ret None
     end)
    is_Exception
    (with_lock (update_self (set_stats incr_errors) ;;; emit Ev_errors) ;;;
     v <~ gets (λ w, verbose (self w)) ;;
     (if v : bool then call_print (Ev_print_error full_subdomain) else ret tt) ;;;
     ret None).

Definition check_subdomain (sub : string) : M world (option result) :=
  entered <~ probe_enter env sub ;;
  probe_body entered.1 entered.2.
End Probe.

(** A console that takes every message, and one that takes none. *)
Definition working_console : console := λ _, Returns tt.
Definition closed_console : console := λ _, Raises OtherException.

(** The console works for every message. *)
Definition works (out : console) : Prop := ∀ message, out message = Returns tt.

(** The network calls among the events. *)
Definition is_network_call (e : event) : bool :=
  match e with
  | Ev_gethostbyname _ | Ev_get _ => true
  | _ => false
  end.

Definition network_calls (trace : list event) : list event :=
  filter (λ e, is_network_call e = true) trace.

(** Vocabulary: the network calls of the probe of [host], in order. *)
Definition network_trace (env : environment) (host : string) : list event :=
  Ev_gethostbyname host
  :: (if Spec.resolved env host then
        Ev_get (Spec.http_url host)
        :: (if Spec.fetch_fault env (Spec.http_url host) then []
            else [Ev_get (Spec.https_url host)])
      else []).

(** Vocabulary: the [except Exception] handler, from the state [st] in
    which the exception reaches it. *)
Definition handle_exception (out : console) (host : string) (st : world)
    : outcome (option result) * world :=
  let st1 := {| self := set_stats incr_errors (self st);
                log := log st ++ [Ev_errors] |} in
  if verbose (self st) then
    let st2 := {| self := self st1; log := log st1 ++ [Ev_print_error host] |} in
    match out (Ev_print_error host) with
    | Returns _ => (Returns None, st2)
    | Raises e => (Raises e, st2)
    end
  else (Returns None, st1).

(** Vocabulary: the state in which the found message is printed. *)
Definition found_state (env : environment) (host : string) (w : world) : world :=
  let r := Spec.found_result env host (Spec.blank_result env host) in
  {| self := set_stats incr_discovered (append_discovered r (self w));
     log := log w ++ network_trace env host
            ++ [Ev_append r; Ev_discovered; Ev_print_found r] |}.

(** How the probe ends, with any console: the value of the probe when no
    write fails; [None] when the found message cannot be written or a
    failure was unexpected; an exception only from the handler's own
    message. *)
Definition console_outcome (env : environment) (out : console)
    (host : string) (vb : bool) : outcome (option result) :=
  let r := Spec.found_result env host (Spec.blank_result env host) in
  let handled :=
    if vb then
      match out (Ev_print_error host) with
      | Returns _ => Returns None
      | Raises e => Raises e
      end
    else Returns None in
  match Spec.verdict_of env host with
  | Spec.Found => match out (Ev_print_found r) with
             | Returns _ => Returns (Some r)
             | Raises _ => handled
             end
  | Spec.Faulted => handled
  | _ => Returns None
  end.

(** Whether the handler runs. *)
Definition console_error (env : environment) (out : console)
    (host : string) : bool :=
  Spec.unexpected_failure env host
  || Spec.discovers env host
     && negb (Spec.succeeded (out (Ev_print_found
                                (Spec.found_result env host (Spec.blank_result env host))))).

End Console.

(* ===================================================================== *)
(** ** [load_wordlist] on Unicode text *)
(* ===================================================================== *)

(** [load_wordlist] opens the file with [encoding='utf-8'] and
    [errors='ignore'], and calls [str.strip] and [str.lower] on [str]
    values.  Here a character is its code point and a [str] the list of
    its characters.  The codec and the character tables belong to the
    interpreter, not to the repository: they are the variables of the
    section. *)
Module Unicode.

Local Open Scope N_scope.

Definition char : Type := N.
Definition text : Type := list char.

Definition LF : char := 10.
Definition CR : char := 13.

(** U+03A3, U+03C2 and U+03C3: the capital sigma, the only character
    [str.lower] maps according to its context, and its two small forms. *)
Definition CAPITAL_SIGMA : char := 931.
Definition FINAL_SIGMA : char := 962.
Definition SMALL_SIGMA : char := 963.

(** How opening and reading [self.wordlist_file] ends. *)
Inductive file_read : Type :=
| Read_ok (raw : list Byte.byte)
| File_not_found
| Read_failed.

Inductive load_result : Type :=
| Loaded (unique_subdomains : list text)
| Sys_exit (code : Z).

(** Truthiness of a [str]. *)
Definition truthy (s : text) : bool :=
  match s with [] => false | _ => true end.

(** Text mode with the default [newline=None]: CR LF and a lone CR are
    both read as LF. *)
Fixpoint translate_newlines (s : text) : text :=
  match s with
  | [] => []
  | c :: s' =>
      if c =? CR then
        match s' with
        | c' :: s'' =>
            if c' =? LF then LF :: translate_newlines s''
            else LF :: translate_newlines s'
        | [] => [LF]
        end
      else c :: translate_newlines s'
  end.

(** [for line in f]: each line keeps its terminating LF; a last line
    without terminator is yielded as it is. *)
Fixpoint iter_lines (s : text) : list text :=
  match s with
  | [] => []
  | c :: s' =>
      if c =? LF then [c] :: iter_lines s'
      else match iter_lines s' with
           | [] => [[c]]
           | l :: ls => (c :: l) :: ls
           end
  end.

(** [list(set(subdomains))]: the elements of the set, in the order the
    set enumerates them. *)
Definition list_of_set (subdomains : list text) : list text :=
  elements (list_to_set subdomains : gset text).

Section Tables.

(** The [utf-8] codec with [errors='ignore']: it yields a text for every
    sequence of bytes. *)
Variable decode : list Byte.byte → text.

(** [str.isspace] of one character. *)
Variable isspace : char → bool.

(** The full lower-case mapping of one character, one to three
    characters long, and the test for the final form of the sigma, from
    the characters before and after it. *)
Variable to_lower_full : char → text.
Variable final_sigma : text → text → bool.

(** [str.lower]: every character is replaced by its mapping, the capital
    sigma by one of its small forms; [mapping] is what is written for
    the character [c] between [before] and [rest]. *)
Definition mapping (before : text) (c : char) (rest : text) : text :=
  if c =? CAPITAL_SIGMA
  then [if final_sigma before rest then FINAL_SIGMA else SMALL_SIGMA]
  else to_lower_full c.

Fixpoint lower_from (before s : text) : text :=
  match s with
  | [] => []
  | c :: rest => mapping before c rest ++ lower_from (before ++ [c]) rest
  end.

Definition lower (s : text) : text := lower_from [] s.

(** A character that [str.lower] leaves as it is. *)
Definition stable (d : char) : Prop :=
  d ≠ CAPITAL_SIGMA ∧ to_lower_full d = [d].

Fixpoint lstrip (s : text) : text :=
  match s with
  | [] => []
  | c :: s' => if isspace c then lstrip s' else s
  end.

Fixpoint rstrip (s : text) : text :=
  match s with
  | [] => []
  | c :: s' =>
      match rstrip s' with
      | [] => if isspace c then [] else [c]
      | r => c :: r
      end
  end.

(** [str.strip()] with no argument. *)
Definition strip (s : text) : text := lstrip (rstrip s).

(** [[line.strip().lower() for line in f if line.strip()]]. *)
Definition read_subdomains (content : text) : list text :=
  (λ line, lower (strip line)) <$>
    filter (λ line, Is_true (truthy (strip line)))
           (iter_lines (translate_newlines content)).

Definition load_wordlist (f : file_read) : load_result :=
  match f with
  | Read_ok raw => Loaded (list_of_set (read_subdomains (decode raw)))
  | File_not_found => Sys_exit 1
  | Read_failed => Loaded []
  end.

(** First and last character tests, to state "no leading or trailing
    whitespace" without mentioning [strip]. *)
Definition starts_with_space (s : text) : bool :=
  match s with
  | [] => false
  | c :: _ => isspace c
  end.

Fixpoint ends_with_space (s : text) : bool :=
  match s with
  | [] => false
  | c :: s' =>
      match s' with
      | [] => isspace c
      | _ => ends_with_space s'
      end
  end.

(** What the data model asks of a candidate: it is not empty, lowering
    it changes nothing, and it neither starts nor ends with whitespace. *)
Record candidate (x : text) : Prop := mk_candidate {
  cand_nonempty : x ≠ [];
  cand_lower : lower x = x;
  cand_no_leading : starts_with_space x = false;
  cand_no_trailing : ends_with_space x = false;
  cand_stripped : strip x = x
}.

(** What the properties below need of the tables: a mapping is not
    empty; its characters are mapped to themselves and none of them is
    the capital sigma; so are the small sigmas; and the mapping of a
    character that is no whitespace holds no whitespace. *)
Record case_tables : Prop := mk_case_tables {
  lower_nonempty : ∀ c, to_lower_full c ≠ [];
  lower_stable : ∀ c d, d ∈ to_lower_full c →
    d ≠ CAPITAL_SIGMA ∧ to_lower_full d = [d];
  sigma_stable : to_lower_full FINAL_SIGMA = [FINAL_SIGMA]
                 ∧ to_lower_full SMALL_SIGMA = [SMALL_SIGMA];
  lower_nonspace : ∀ c d, isspace c = false → d ∈ to_lower_full c →
    isspace d = false;
  sigma_nonspace : isspace FINAL_SIGMA = false ∧ isspace SMALL_SIGMA = false
}.

End Tables.

(** The tables on the characters up to U+00FF, and the sigma: the
    whitespace of that range, with U+0085 and U+00A0, and the capitals
    of ASCII and of Latin-1. *)
Definition isspace_latin1 (c : char) : bool :=
  ((9 <=? c) && (c <=? 13)) || ((28 <=? c) && (c <=? 32))
  || (c =? 133) || (c =? 160).

Definition isupper_latin1 (c : char) : bool :=
  ((65 <=? c) && (c <=? 90)) || ((192 <=? c) && (c <=? 214))
  || ((216 <=? c) && (c <=? 222)).

Definition to_lower_latin1 (c : char) : text :=
  if isupper_latin1 c then [c + 32]
  else if c =? CAPITAL_SIGMA then [SMALL_SIGMA]
  else [c].

Definition no_final_sigma : text → text → bool := λ _ _, false.

(** The codec on the one-byte and two-byte forms; every other byte is
    ignored. *)
Fixpoint utf8_ignore (raw : list Byte.byte) : text :=
  match raw with
  | [] => []
  | b :: rest =>
      let n := Byte.to_N b in
      if n <? 128 then n :: utf8_ignore rest
      else match rest with
           | b' :: rest' =>
               let m := Byte.to_N b' in
               if (194 <=? n) && (n <=? 223) && (128 <=? m) && (m <=? 191)
               then ((n - 192) * 64 + (m - 128)) :: utf8_ignore rest'
               else utf8_ignore rest
           | [] => []
           end
  end.

(** A wordlist file: a no-break space, [CafÉ], a no-break space; then
    [café]; then a line that holds U+0085 only. *)
Definition wordlist_bytes : list Byte.byte :=
  [Byte.xc2; Byte.xa0; Byte.x43; Byte.x61; Byte.x66; Byte.xc3; Byte.x89;
   Byte.xc2; Byte.xa0; Byte.x0a;
   Byte.x63; Byte.x61; Byte.x66; Byte.xc3; Byte.xa9; Byte.x0d; Byte.x0a;
   Byte.xc2; Byte.x85; Byte.x0a].

End Unicode.

(* ===================================================================== *)
(** ** Concrete environments *)
(* ===================================================================== *)

Module Scenario.
Import Py Enumerator.

(** The enumerator of [main] for [example.com] with the default options. *)
Definition enumerator_example : enumerator :=
  init "example.com" "wordlists/subdomains.txt" 50 10 None false 0.

Definition nginx_200 : response :=
  {| status_code := 200; header_Server := Some "nginx" |}.

(** [www] resolves and serves HTTP 200, [api] resolves but refuses both
    schemes, [ghost] does not resolve. *)
Definition env_example : environment :=
  {| gethostbyname := λ host,
       if bool_decide (host = "ghost.example.com") then Raises gaierror
       else Returns "93.184.216.34";
     session_get := λ url,
       if bool_decide (url = "http://www.example.com") then Returns nginx_200
       else Raises RequestException;
     now_isoformat := λ _, "2024-01-01T00:00:00" |}.

(** Every name resolves and answers on both schemes. *)
Definition env_all_up : environment :=
  {| gethostbyname := λ _, Returns "93.184.216.34";
     session_get := λ _, Returns nginx_200;
     now_isoformat := λ _, "2024-01-01T00:00:00" |}.

(** Every name resolves and answers HTTP; the HTTPS fetch raises an
    exception that is not a [RequestException]. *)
Definition env_https_fault : environment :=
  {| gethostbyname := λ _, Returns "93.184.216.34";
     session_get := λ url,
       if String.prefix "http://" url then Returns nginx_200
       else Raises OtherException;
     now_isoformat := λ _, "2024-01-01T00:00:00" |}.

(** The resolver raises an exception that is not [socket.gaierror] for
    [bad], and the environment of the example otherwise. *)
Definition env_bad_name : environment :=
  {| gethostbyname := λ host,
       if bool_decide (host = "bad.example.com") then Raises OtherException
       else gethostbyname env_example host;
     session_get := session_get env_example;
     now_isoformat := now_isoformat env_example |}.

(** The HTTP response carries [Server: Unknown], the HTTPS response
    [Server: nginx]. *)
Definition env_unknown_banner : environment :=
  {| gethostbyname := λ _, Returns "93.184.216.34";
     session_get := λ url,
       if String.prefix "http://" url
       then Returns {| status_code := 200; header_Server := Some "Unknown" |}
       else Returns nginx_200;
     now_isoformat := λ _, "2024-01-01T00:00:00" |}.

(** Only HTTPS answers, with [Server: nginx]. *)
Definition env_https_only : environment :=
  {| gethostbyname := λ _, Returns "93.184.216.34";
     session_get := λ url,
       if String.prefix "https://" url then Returns nginx_200
       else Raises RequestException;
     now_isoformat := λ _, "2024-01-01T00:00:00" |}.

(** An enumerator with two worker threads. *)
Definition enumerator_two_threads : enumerator :=
  init "example.com" "wordlists/subdomains.txt" 2 10 None false 0.

(** Two workers are started and each takes a candidate. *)
Definition schedule_two_in_flight : list Pool.action :=
  [Pool.Submit_spawn; Pool.Submit_spawn; Pool.Take 0; Pool.Take 1].

End Scenario.

(* ===================================================================== *)
(** * Properties *)
(* ===================================================================== *)

(** ** The candidate list of [load_wordlist] *)

Example lower_example : Text.lower "WwW.Api-1" = "www.api-1".
Proof. reflexivity. Qed.

Example strip_example : Text.strip "  mail 01
" = "mail 01".
Proof. reflexivity. Qed.

Example iter_lines_example :
  Text.iter_lines (Text.translate_newlines (String "a" (String Text.CR (String Text.LF (String "b" (String Text.CR "c"))))))
  = [String "a" (String Text.LF ""); String "b" (String Text.LF ""); "c"].
Proof. reflexivity. Qed.

Module TextFacts.
Import Text.

Ltac by_ascii_cases c :=
  destruct c as [[] [] [] [] [] [] [] []]; vm_compute; reflexivity.

Lemma isspace_lower_char c : isspace (lower_char c) = isspace c.
Proof. by_ascii_cases c. Qed.

Lemma isupper_lower_char c : isupper (lower_char c) = false.
Proof. by_ascii_cases c. Qed.

Lemma lower_char_idem c : lower_char (lower_char c) = lower_char c.
Proof. by_ascii_cases c. Qed.

Lemma starts_with_space_lstrip s : starts_with_space (lstrip s) = false.
Proof.
  induction s as [|c s IH]; simpl; [done|].
  destruct (isspace c) eqn:Hc; [done|]. simpl. by rewrite Hc.
Qed.

Lemma ends_with_space_rstrip s : ends_with_space (rstrip s) = false.
Proof.
  induction s as [|c s IH]; simpl; [done|].
  destruct (rstrip s) as [|d r] eqn:Hr.
  - destruct (isspace c) eqn:Hc; simpl; [done|]. by rewrite Hc.
  - exact IH.
Qed.

Lemma ends_with_space_lstrip s :
  ends_with_space s = false → ends_with_space (lstrip s) = false.
Proof.
  induction s as [|c s IH]; simpl; [done|]. intros H.
  destruct (isspace c) eqn:Hc.
  - apply IH. destruct s; [done|exact H].
  - destruct s; [simpl; exact Hc|exact H].
Qed.

Lemma strip_clean s :
  starts_with_space (strip s) = false ∧ ends_with_space (strip s) = false.
Proof.
  unfold strip. split.
  - apply starts_with_space_lstrip.
  - apply ends_with_space_lstrip, ends_with_space_rstrip.
Qed.

Lemma starts_with_space_lower s :
  starts_with_space (lower s) = starts_with_space s.
Proof. destruct s; simpl; [done|apply isspace_lower_char]. Qed.

Lemma ends_with_space_lower s :
  ends_with_space (lower s) = ends_with_space s.
Proof.
  induction s as [|c s IH]; simpl; [done|].
  destruct s as [|d s]; simpl in *; [apply isspace_lower_char|exact IH].
Qed.

Lemma has_upper_lower s : has_upper (lower s) = false.
Proof.
  induction s as [|c s IH]; simpl; [done|].
  by rewrite isupper_lower_char, IH.
Qed.

Lemma lower_idem s : lower (lower s) = lower s.
Proof.
  induction s as [|c s IH]; simpl; [done|].
  by rewrite lower_char_idem, IH.
Qed.

Lemma truthy_lower s : truthy (lower s) = truthy s.
Proof. by destruct s. Qed.

Lemma rstrip_fixed s : ends_with_space s = false → rstrip s = s.
Proof.
  induction s as [|c s IH]; simpl; [done|]. intros H.
  destruct s as [|d s].
  - simpl. by rewrite H.
  - rewrite (IH H). done.
Qed.

Lemma lstrip_fixed s : starts_with_space s = false → lstrip s = s.
Proof. destruct s as [|c s]; simpl; [done|]. by intros ->. Qed.

Lemma strip_fixed s :
  starts_with_space s = false → ends_with_space s = false → strip s = s.
Proof.
  intros H1 H2. unfold strip. rewrite (rstrip_fixed s H2).
  by apply lstrip_fixed.
Qed.

End TextFacts.

Module WordlistFacts.
Import Text TextFacts Py Enumerator Spec.


Lemma candidate_normalized line :
  truthy (strip line) = true → candidate (lower (strip line)).
Proof.
  intros Hne.
  assert (starts_with_space (lower (strip line)) = false) as Hs
    by (rewrite starts_with_space_lower; apply strip_clean).
  assert (ends_with_space (lower (strip line)) = false) as He
    by (rewrite ends_with_space_lower; apply strip_clean).
  split.
  - intros Heq. rewrite <- truthy_lower, Heq in Hne. discriminate.
  - apply has_upper_lower.
  - apply lower_idem.
  - exact Hs.
  - exact He.
  - by apply strip_fixed.
Qed.

Lemma read_subdomains_candidates content :
  Forall candidate (read_subdomains content).
Proof.
  unfold read_subdomains. apply Forall_fmap, Forall_forall.
  intros line Hin. apply list_elem_of_filter in Hin as [Hne _].
  apply candidate_normalized. by apply Is_true_eq_true.
Qed.

Lemma list_of_set_elem_of l x : x ∈ list_of_set l ↔ x ∈ l.
Proof. unfold list_of_set. by rewrite elem_of_elements, elem_of_list_to_set. Qed.

Lemma list_of_set_NoDup l : NoDup (list_of_set l).
Proof. unfold list_of_set. apply NoDup_elements. Qed.

End WordlistFacts.

(** The wordlist read as ASCII text: [load_wordlist] returns a list
    without duplicates whose members are exactly the normalized non-blank
    lines, each of them a candidate. *)
Lemma ascii_wordlist_candidates (content : string) :
  ∃ l, Enumerator.load_wordlist (Enumerator.Read_ok content) = Enumerator.Loaded l
       ∧ NoDup l
       ∧ (∀ x, x ∈ l ↔ x ∈ Enumerator.read_subdomains content)
       ∧ Forall Spec.candidate l.
Proof.
  eexists. split; [reflexivity|]. split; [|split].
  - apply WordlistFacts.list_of_set_NoDup.
  - apply WordlistFacts.list_of_set_elem_of.
  - apply Forall_forall. intros x Hx.
    apply (proj1 (WordlistFacts.list_of_set_elem_of _ _)) in Hx.
    pose proof (WordlistFacts.read_subdomains_candidates content) as Hall.
    rewrite Forall_forall in Hall. by apply Hall.
Qed.

(** ** One probe: what [check_subdomain] returns, changes and does *)

Module ProbeFacts.
Import Py Enumerator Spec.

Lemma probe_enter_eq env sub w :
  probe_enter env sub w
  = (Returns (full_name sub (domain (self w)),
              blank_result env (full_name sub (domain (self w)))),
     {| self := set_stats incr_tested (self w); log := log w ++ [Ev_tested] |}).
Proof. reflexivity. Qed.

Ltac unfold_probe :=
  unfold probe_body, call_gethostbyname, call_session_get, try_except, bind,
    with_lock, update_self, emit, modify, gets, lift, ret;
  unfold probe_value, probe_self, probe_trace, verdict_of, found_result,
    unexpected_failure, resolution_failed, resolution_fault, resolved,
    fetched, fetch_failed, fetch_fault, succeeded, http_url, https_url.

(** The [try] statement of [check_subdomain], in closed form, from the
    [result] that [probe_enter] builds. *)
Lemma probe_body_eq env host w :
  let r := blank_result env host in
  probe_body env host r w
  = (Returns (probe_value env host r),
     {| self := probe_self env host r (self w);
        log := log w ++ probe_trace env host r (verbose (self w)) |}).
Proof.
  unfold_probe. destruct w as [o lg]. cbn [self log].
  destruct (gethostbyname env host) as [ip|[]]; cbn;
    try (destruct (verbose o); cbn; rewrite <- ?app_assoc; reflexivity);
    try (rewrite <- ?app_assoc; reflexivity).
  destruct (session_get env ("http://" +:+ host)) as [resp1|[]]; cbn;
    try (destruct (verbose o); cbn; rewrite <- ?app_assoc; reflexivity);
    destruct (session_get env ("https://" +:+ host)) as [resp2|[]]; cbn;
    try (destruct (verbose o); cbn; rewrite <- ?app_assoc; reflexivity);
    rewrite <- ?app_assoc; reflexivity.
Qed.

Lemma check_subdomain_eq env sub w :
  let host := full_name sub (domain (self w)) in
  let r := blank_result env host in
  check_subdomain env sub w
  = (Returns (probe_value env host r),
     {| self := probe_self env host r (set_stats incr_tested (self w));
        log := log w ++ Ev_tested :: probe_trace env host r (verbose (self w)) |}).
Proof.
  cbn zeta. unfold check_subdomain, bind. rewrite probe_enter_eq.
  cbn [fst snd]. rewrite probe_body_eq. cbn [self log verbose set_stats].
  by rewrite <- app_assoc.
Qed.

Ltac unfold_spec :=
  unfold value_of, faulted, discovers, supplied_Server,
    probe_value, probe_self, probe_trace, verdict_of, found_result,
    unexpected_failure, resolution_failed, resolution_fault, resolved,
    fetched, fetch_failed, fetch_fault, succeeded, http_url, https_url in *.

Ltac env_cases env host :=
  destruct (gethostbyname env host) as [?ip|[]];
  destruct (session_get env ("http://" +:+ host)) as [?resp|[]];
  destruct (session_get env ("https://" +:+ host)) as [?resp|[]];
  cbn in *.

Lemma verdict_Found env host :
  verdict_of env host = Found ↔ discovers env host = true.
Proof. unfold_spec. env_cases env host; split; congruence. Qed.

Lemma verdict_Faulted env host :
  verdict_of env host = Faulted ↔ unexpected_failure env host = true.
Proof. unfold_spec. env_cases env host; split; congruence. Qed.

Lemma verdict_Unresolved env host :
  verdict_of env host = Unresolved ↔ resolution_failed env host = true.
Proof. unfold_spec. env_cases env host; split; congruence. Qed.

Lemma probe_value_Some env host r r' :
  probe_value env host r = Some r'
  ↔ discovers env host = true ∧ r' = found_result env host r.
Proof.
  rewrite <- verdict_Found. unfold probe_value.
  destruct (verdict_of env host); (split; [intros H|intros [??]]);
    try split; congruence.
Qed.

Lemma probe_value_None env host r :
  probe_value env host r = None ↔ discovers env host = false.
Proof.
  destruct (discovers env host) eqn:Hd.
  - apply verdict_Found in Hd. unfold probe_value. rewrite Hd. split; congruence.
  - split; [done|]. intros _. destruct (probe_value env host r) eqn:Hv; [|done].
    apply probe_value_Some in Hv as [Hv _]. congruence.
Qed.

(** The frame of the [try] statement: configuration and [tested] stay. *)
Lemma probe_self_frame env host r o :
  domain (probe_self env host r o) = domain o
  ∧ max_threads (probe_self env host r o) = max_threads o
  ∧ verbose (probe_self env host r o) = verbose o
  ∧ output_file (probe_self env host r o) = output_file o
  ∧ tested (stats (probe_self env host r o)) = tested (stats o).
Proof. unfold probe_self. by destruct (verdict_of env host). Qed.

Lemma probe_self_discovered_subdomains env host r o :
  discovered_subdomains (probe_self env host r o)
  = discovered_subdomains o ++ option_list (probe_value env host r).
Proof.
  unfold probe_self, probe_value.
  destruct (verdict_of env host); cbn; by rewrite ?app_nil_r.
Qed.

Lemma probe_self_discovered env host r o :
  discovered (stats (probe_self env host r o))
  = discovered (stats o) + Z.of_nat (length (option_list (probe_value env host r))).
Proof.
  unfold probe_self, probe_value.
  destruct (verdict_of env host); cbn; lia.
Qed.

Lemma probe_self_errors env host r o :
  errors (stats (probe_self env host r o))
  = errors (stats o) + (if unexpected_failure env host then 1 else 0).
Proof.
  destruct (unexpected_failure env host) eqn:Hu.
  - apply verdict_Faulted in Hu. unfold probe_self. rewrite Hu. done.
  - unfold probe_self. destruct (verdict_of env host) eqn:Hv; cbn; try lia.
    apply verdict_Faulted in Hv. congruence.
Qed.

End ProbeFacts.

(** ** The run: an invariant of the thread pool *)

Module PoolFacts.
Import Py Enumerator Spec Pool ProbeFacts.

Local Arguments probe_enter : simpl never.
Local Arguments probe_body : simpl never.

Lemma insert_split {A} (l : list A) i x y :
  l !! i = Some y →
  ∃ l1 l2, l = l1 ++ y :: l2 ∧ <[i:=x]> l = l1 ++ x :: l2.
Proof.
  intros H. exists (take i l), (drop (S i) l). split.
  - by rewrite take_drop_middle.
  - apply insert_take_drop. by eapply lookup_lt_Some.
Qed.

Lemma length_omap_le {A B} (f : A → option B) (l : list A) :
  (length (omap f l) ≤ length l)%nat.
Proof.
  induction l as [|x l IH]; [done|]. cbn. destruct (f x); cbn; lia.
Qed.

Lemma counted_in_flight ws :
  omap worker_task ws = [] → omap is_probing ws = [].
Proof.
  induction ws as [|w ws IH]; [done|]. destruct w; cbn; [exact IH|done..].
Qed.

Lemma start_invariant env o cs : run_invariant env o cs (start o cs).
Proof.
  split; cbn; try done; try lia.
  - intros c full r Hin. by apply elem_of_nil in Hin.
  - intros c oc Hin. by apply elem_of_nil in Hin.
  - by rewrite app_nil_r.
  - by rewrite app_nil_r.
  - by left.
Qed.

(** Every step of every thread keeps the invariant. *)
Lemma exec_invariant env o0 cs a s s' :
  run_invariant env o0 cs s → exec env a s = Some s' → run_invariant env o0 cs s'.
Proof.
  destruct s as [p q ws fs sh]. intros [Hdom Hmax Hloc Hfin Hds Ht Hd He Hcs Hws].
  unfold in_flight, counted in *. cbn in *.
  destruct a as [| |i|i|i]; unfold exec;
    cbn [pending work_queue workers finished shared].
  - (* submit, new thread *)
    destruct p as [|c p]; [done|]. unfold max_workers. cbn.
    case_bool_decide as Hlt; [|done]. intros [= <-].
    split; unfold in_flight, counted; cbn; try done.
    + intros c' full r Hin. apply elem_of_app in Hin as [Hin|Hin]; [by eapply Hloc|].
      by apply list_elem_of_singleton in Hin.
    + rewrite omap_app. cbn. by rewrite app_nil_r.
    + rewrite omap_app. cbn. rewrite app_nil_r, Hcs. solve_Permutation.
    + right. rewrite length_app. cbn. lia.
  - (* submit, no new thread *)
    destruct p as [|c p]; [done|]. destruct ws as [|w ws]; [done|]. intros [= <-].
    split; unfold in_flight, counted; cbn; try done.
    rewrite Hcs. solve_Permutation.
  - (* a thread takes a work item *)
    destruct (ws !! i) as [[| |]|] eqn:Hi; try done.
    destruct q as [|c q]; [done|]. intros [= <-].
    destruct (insert_split ws i (Called c) _ Hi) as (l1 & l2 & -> & Hins).
    split; unfold in_flight, counted; cbn; rewrite ?Hins; try done.
    + intros c' full r Hin. apply (Hloc c').
      rewrite !elem_of_app, !elem_of_cons in Hin.
      rewrite !elem_of_app, !elem_of_cons.
      destruct Hin as [Hin|[Hin|Hin]]; [by left|done|by right; right].
    + rewrite Ht, !omap_app. done.
    + rewrite Hcs, !omap_app. cbn. solve_Permutation.
    + right. destruct Hws as [Hnil|Hle]; [by destruct l1|].
      rewrite !length_app in *. cbn in *. lia.
  - (* the thread enters [check_subdomain] *)
    destruct (ws !! i) as [[|c|]|] eqn:Hi; try done.
    rewrite probe_enter_eq. cbn [pending work_queue workers finished shared].
    intros [= <-].
    destruct (insert_split ws i
      (Probing c (full_name c (domain (self sh)))
         (blank_result env (full_name c (domain (self sh))))) _ Hi)
      as (l1 & l2 & -> & Hins).
    split; unfold in_flight, counted; cbn; rewrite ?Hins; try done.
    + intros c' full r Hin. rewrite <- Hdom.
      rewrite !elem_of_app, !elem_of_cons in Hin.
      destruct Hin as [Hin|[Hin|Hin]].
      * rewrite Hdom. apply (Hloc c'). rewrite elem_of_app. by left.
      * by injection Hin as -> -> ->.
      * rewrite Hdom. apply (Hloc c'). rewrite elem_of_app, elem_of_cons. auto.
    + rewrite Ht, !omap_app, !length_app. cbn. lia.
    + rewrite Hcs, !omap_app. done.
    + right. destruct Hws as [Hnil|Hle]; [by destruct l1|].
      rewrite !length_app in *. cbn in *. lia.
  - (* the thread finishes [check_subdomain] *)
    destruct (ws !! i) as [[| |c full r]|] eqn:Hi; try done.
    destruct (Hloc c full r) as [-> ->]; [by eapply list_elem_of_lookup_2|].
    rewrite probe_body_eq. cbn [pending work_queue workers finished shared].
    intros [= <-].
    destruct (insert_split ws i Idle _ Hi) as (l1 & l2 & -> & Hins).
    pose proof (probe_self_frame env (full_name c (domain o0))
      (blank_result env (full_name c (domain o0))) (self sh))
      as (Hf1 & Hf2 & Hf3 & Hf4 & Hf5).
    split; unfold in_flight, counted; cbn; rewrite ?Hins; try congruence.
    + intros c' full r Hin. apply (Hloc c').
      rewrite !elem_of_app, !elem_of_cons in Hin.
      rewrite !elem_of_app, !elem_of_cons.
      destruct Hin as [Hin|[Hin|Hin]]; [by left|done|by right; right].
    + intros c' oc Hin. apply elem_of_app in Hin as [Hin|Hin]; [by apply Hfin|].
      apply list_elem_of_singleton in Hin. by injection Hin as -> ->.
    + rewrite probe_self_discovered_subdomains, Hds, fmap_app, omap_app.
      cbn. rewrite <- app_assoc. f_equal; unfold value_of;
        by try destruct (probe_value _ _ _).
    + rewrite Hf5, Ht, !omap_app, !length_app. cbn. lia.
    + rewrite probe_self_discovered, Hd, fmap_app, omap_app, !length_app.
      cbn. unfold value_of. destruct (probe_value _ _ _); cbn; lia.
    + rewrite probe_self_errors, He, fmap_app, filter_app, !length_app.
      cbn. unfold faulted.
      destruct (decide _) as [Hu|Hu]; [rewrite Hu|apply not_true_is_false in Hu; rewrite Hu];
        cbn; lia.
    + rewrite Hcs, !omap_app, fmap_app. cbn. solve_Permutation.
    + right. destruct Hws as [Hnil|Hle]; [by destruct l1|].
      rewrite !length_app in *. cbn in *. lia.
Qed.

Lemma run_invariant_preserved env o0 cs schedule s s' :
  run_invariant env o0 cs s → run env schedule s = Some s' →
  run_invariant env o0 cs s'.
Proof.
  revert s. induction schedule as [|a rest IH]; intros s Hinv; cbn.
  - by intros [= <-].
  - destruct (exec env a s) as [s1|] eqn:Hs; [|done].
    apply IH. by eapply exec_invariant.
Qed.

Lemma reachable_invariant env o cs s :
  reachable env o cs s → run_invariant env o cs s.
Proof.
  intros [schedule Hrun].
  eapply run_invariant_preserved; [apply start_invariant|exact Hrun].
Qed.

(** A single worker taking the candidates one after the other brings
    the run to its end. *)
Lemma one_by_one_completes env cs s :
  pending s = cs → work_queue s = [] → workers s = [Idle] →
  ∃ s', run env (one_by_one false cs) s = Some s' ∧ completed s' = true.
Proof.
  revert s. induction cs as [|c cs IH]; intros [p q ws fs sh];
    cbn [pending work_queue workers]; intros -> -> ->; cbn.
  - by eexists.
  - rewrite probe_enter_eq. cbn.
    destruct (probe_body env _ _ _) as [oc w'].
    apply IH; reflexivity.
Qed.

Lemma complete_run_exists env o cs :
  0 < max_threads o →
  ∃ s, run env (one_by_one true cs) (start o cs) = Some s ∧ completed s = true.
Proof.
  intros Hmax. destruct cs as [|c cs]; [by eexists|].
  cbn. unfold max_workers. cbn. rewrite bool_decide_eq_true_2 by lia. cbn.
  rewrite probe_enter_eq. cbn.
  destruct (probe_body env _ _ _) as [oc w'].
  apply one_by_one_completes; reflexivity.
Qed.

Lemma completed_inv s :
  completed s = true → pending s = [] ∧ work_queue s = [] ∧ in_flight s = [].
Proof.
  unfold completed.
  destruct (pending s), (work_queue s), (in_flight s); done.
Qed.

(** At the end of a run the futures are those of the candidates. *)
Lemma completed_candidates env o cs s :
  run_invariant env o cs s → completed s = true →
  (finished s).*1 ≡ₚ cs ∧ counted s = [].
Proof.
  intros Hinv Hdone. apply completed_inv in Hdone as (Hp & Hq & Hfl).
  split.
  - rewrite (inv_candidates _ _ _ _ Hinv), Hp, Hq, Hfl. done.
  - by apply counted_in_flight.
Qed.

End PoolFacts.

(** ** Counters and traces *)

Module CounterFacts.
Import Py Enumerator Spec Pool ProbeFacts PoolFacts.

Lemma found_not_faulted env dom c r :
  value_of env dom c = Some r → faulted env dom c = false.
Proof.
  unfold value_of, faulted. intros Hv.
  apply probe_value_Some in Hv as [Hd _]. apply verdict_Found in Hd.
  destruct (unexpected_failure env (full_name c dom)) eqn:Hu; [|done].
  apply verdict_Faulted in Hu. congruence.
Qed.

(** Probes that discover and probes that fault are different probes. *)
Lemma found_faulted_le env dom (l : list string) :
  (length (omap (value_of env dom) l)
   + length (filter (λ c, faulted env dom c = true) l) ≤ length l)%nat.
Proof.
  induction l as [|c l IH]; [done|].
  rewrite filter_cons. cbn.
  destruct (value_of env dom c) as [r|] eqn:Hv.
  - apply found_not_faulted in Hv. case_decide; [congruence|]. cbn. lia.
  - case_decide; cbn; lia.
Qed.

(** The counter events of the [try] statement. *)
Lemma probe_trace_counters env host r v :
  occurrences Ev_tested (probe_trace env host r v) = 0%nat
  ∧ occurrences Ev_discovered (probe_trace env host r v)
    = (if discovers env host then 1 else 0)%nat
  ∧ occurrences Ev_errors (probe_trace env host r v)
    = (if unexpected_failure env host then 1 else 0)%nat.
Proof.
  unfold occurrences. unfold_spec.
  env_cases env host; destruct v; cbn; done.
Qed.

Lemma check_subdomain_counters env sub w :
  let host := full_name sub (domain (self w)) in
  ∃ v w' rest,
    check_subdomain env sub w = (Returns v, w')
    ∧ log w' = log w ++ Ev_tested :: rest
    ∧ occurrences Ev_tested rest = 0%nat
    ∧ occurrences Ev_discovered rest = (if discovers env host then 1 else 0)%nat
    ∧ occurrences Ev_errors rest = (if unexpected_failure env host then 1 else 0)%nat
    ∧ tested (stats (self w')) = tested (stats (self w)) + 1
    ∧ discovered (stats (self w'))
      = discovered (stats (self w)) + Z.of_nat (occurrences Ev_discovered rest)
    ∧ errors (stats (self w'))
      = errors (stats (self w)) + Z.of_nat (occurrences Ev_errors rest).
Proof.
  intros host. do 3 eexists. split; [apply check_subdomain_eq|].
  cbn [self log]. fold host.
  destruct (probe_trace_counters env host (blank_result env host) (verbose (self w)))
    as (Ht & Hd & He).
  pose proof (probe_self_frame env host (blank_result env host)
    (set_stats incr_tested (self w))) as (_ & _ & _ & _ & Hf).
  split; [done|]. split; [done|]. split; [done|]. split; [done|].
  split; [by rewrite Hf|]. split.
  - rewrite probe_self_discovered, Hd. cbn.
    destruct (discovers env host) eqn:Hdis.
    + apply verdict_Found in Hdis. unfold probe_value. by rewrite Hdis.
    + apply (probe_value_None env host (blank_result env host)) in Hdis.
      by rewrite Hdis.
  - rewrite probe_self_errors, He. cbn.
    by destruct (unexpected_failure env host).
Qed.

End CounterFacts.

(** ** The entries of [discovered_subdomains] *)

Module ResultFacts.
Import Py Enumerator Spec Pool ProbeFacts PoolFacts.

Lemma discovers_spec env host :
  discovers env host = true
  ↔ resolved env host = true
    ∧ (fetched env (http_url host) = true ∨ fetched env (https_url host) = true)
    ∧ fetch_fault env (http_url host) = false
    ∧ fetch_fault env (https_url host) = false.
Proof.
  unfold discovers. rewrite !andb_true_iff, orb_true_iff, !negb_true_iff.
  tauto.
Qed.

Lemma found_result_subdomain env host :
  subdomain (found_result env host (blank_result env host)) = host.
Proof. unfold_spec. by env_cases env host. Qed.

(** A discovered entry has its address and a [server] string. *)
Lemma found_result_fields env host :
  discovers env host = true →
  let r := found_result env host (blank_result env host) in
  (∃ ip, ip_address r = Some ip)
  ∧ (∃ srv, server r = Some srv)
  ∧ (supplied_Server env (http_url host) = None →
     supplied_Server env (https_url host) = None →
     server r = Some "Unknown").
Proof.
  unfold_spec. env_cases env host; intros Hd; try done;
    (split; [by eexists|]);
    repeat match goal with resp : response |- _ => destruct resp as [? [?|]] end;
    cbn; unfold set_https, server_missing, headers_get_Server; cbn;
    (split; [repeat case_match; by eexists|]); try done;
    intros; simplify_eq; done.
Qed.

(** Where the [server] string of a discovered entry comes from. *)
Lemma found_result_server env host :
  discovers env host = true →
  let r := found_result env host (blank_result env host) in
  (yields_banner env (http_url host) = true →
     server r = supplied_Server env (http_url host))
  ∧ (yields_banner env (http_url host) = false →
     fetched env (https_url host) = true →
     server r = Some (default "Unknown" (supplied_Server env (https_url host))))
  ∧ (yields_banner env (http_url host) = false →
     fetched env (https_url host) = false →
     server r = Some (default "Unknown" (supplied_Server env (http_url host)))).
Proof.
  unfold yields_banner. unfold_spec.
  destruct (gethostbyname env host) as [ip|[]];
    destruct (session_get env ("http://" +:+ host)) as [[st1 [h1|]]|[]];
    destruct (session_get env ("https://" +:+ host)) as [[st2 [h2|]]|[]];
    cbn; intros Hd; try done;
    unfold server_missing, headers_get_Server; cbn;
    rewrite ?(bool_decide_eq_true_2 ("Unknown" = "Unknown")) by done; cbn;
    repeat split; intros; try done;
    repeat match goal with
      | H : _ && _ = true |- _ => apply andb_true_iff in H as [??]
      | H : _ && _ = false |- _ => apply andb_false_iff in H as [?|?]
      | H : negb _ = true |- _ => apply negb_true_iff in H
      | H : negb _ = false |- _ => apply negb_false_iff in H
      | H : ?b = _ |- context [?b] => rewrite H
      end;
    rewrite ?orb_true_r; cbn; done.
Qed.

(** Every entry of [discovered_subdomains] in a run that started with
    none is the result of a probe that met the discovery condition. *)
Lemma discovered_entry env o cs s r :
  discovered_subdomains o = [] → reachable env o cs s →
  r ∈ discovered_subdomains (self (shared s)) →
  discovers env (subdomain r) = true
  ∧ r = found_result env (subdomain r) (blank_result env (subdomain r))
  ∧ ∃ c, c ∈ (finished s).*1 ∧ subdomain r = full_name c (domain o).
Proof.
  intros Hnil Hreach Hin. apply reachable_invariant in Hreach as Hinv.
  rewrite (inv_discovered_subdomains _ _ _ _ Hinv), Hnil in Hin. cbn in Hin.
  apply list_elem_of_omap in Hin as (c & Hc & Hv).
  apply probe_value_Some in Hv as [Hd ->].
  rewrite found_result_subdomain. eauto.
Qed.

(** [sorted] returns its argument in ascending order of host name. *)
Lemma insert_by_subdomain_Permutation x l : insert_by_subdomain x l ≡ₚ x :: l.
Proof.
  induction l as [|y l IH]; cbn; [done|].
  destruct (String.leb (subdomain x) (subdomain y)); [done|].
  rewrite IH. apply Permutation_swap.
Qed.

Lemma sorted_by_subdomain_Permutation l : sorted_by_subdomain l ≡ₚ l.
Proof.
  induction l as [|x l IH]; cbn; [done|].
  by rewrite insert_by_subdomain_Permutation, IH.
Qed.

Lemma leb_le s1 s2 : String.leb s1 s2 = true ↔ String.le s1 s2.
Proof. unfold String.le. by rewrite Is_true_true. Qed.

Lemma insert_by_subdomain_Sorted x l :
  Sorted String.le (subdomain <$> l) →
  Sorted String.le (subdomain <$> insert_by_subdomain x l).
Proof.
  induction l as [|y l IH]; cbn; intros Hs.
  - by repeat constructor.
  - destruct (String.leb (subdomain x) (subdomain y)) eqn:Hle.
    + cbn. constructor; [done|]. constructor. by apply leb_le.
    + cbn. apply Sorted_inv in Hs as [Hs Hhd]. constructor; [by apply IH|].
      assert (String.le (subdomain y) (subdomain x)) as Hyx.
      { destruct (String.leb_total (subdomain x) (subdomain y)) as [H|H];
          [congruence|by apply leb_le]. }
      destruct l as [|z l]; cbn.
      * by constructor.
      * destruct (String.leb (subdomain x) (subdomain z)); cbn;
          constructor; [exact Hyx|]. by apply HdRel_inv in Hhd.
Qed.

Lemma sorted_by_subdomain_Sorted l :
  Sorted String.le (subdomain <$> sorted_by_subdomain l).
Proof.
  induction l as [|x l IH]; cbn; [constructor|].
  by apply insert_by_subdomain_Sorted.
Qed.

(** The rows [display_summary] prints are the discovered entries in
    ascending order of host name, whatever the order they were found in. *)
Lemma display_summary_ascending o :
  ascending (subdomain <$> display_summary o)
  ∧ display_summary o ≡ₚ discovered_subdomains o.
Proof.
  unfold display_summary, ascending.
  destruct (discovered_subdomains o) as [|r l] eqn:Hl.
  - split; [constructor|done].
  - split; [apply sorted_by_subdomain_Sorted|apply sorted_by_subdomain_Permutation].
Qed.

Lemma display_summary_order_independent o1 o2 :
  discovered_subdomains o1 ≡ₚ discovered_subdomains o2 →
  subdomain <$> display_summary o1 = subdomain <$> display_summary o2.
Proof.
  intros Hperm. apply (Sorted_unique String.le).
  - apply display_summary_ascending.
  - apply display_summary_ascending.
  - apply fmap_Permutation.
    rewrite (proj2 (display_summary_ascending o1)), Hperm.
    symmetry. apply display_summary_ascending.
Qed.

End ResultFacts.

(* ===================================================================== *)
(** * The claims *)
(* ===================================================================== *)

Module Claims.
Import Py Enumerator Spec Pool ProbeFacts PoolFacts CounterFacts ResultFacts Scenario.

(** C3.  When the resolver fails for the host of a candidate
    ([socket.gaierror]), [check_subdomain] returns [None] right after the
    [gethostbyname] call: the only events of the probe are the [tested]
    increment and that call, so it makes no HTTP or HTTPS fetch; nothing
    is appended to [discovered_subdomains], [discovered] and [errors]
    keep their values, and no exception leaves the probe. *)
Theorem resolution_failure_short_circuit env sub w :
  let host := full_name sub (domain (self w)) in
  resolution_failed env host = true →
  ∃ w', check_subdomain env sub w = (Returns None, w')
    ∧ log w' = log w ++ [Ev_tested; Ev_gethostbyname host]
    ∧ (∀ url, Ev_get url ∈ log w' → Ev_get url ∈ log w)
    ∧ discovered_subdomains (self w') = discovered_subdomains (self w)
    ∧ discovered (stats (self w')) = discovered (stats (self w))
    ∧ errors (stats (self w')) = errors (stats (self w))
    ∧ tested (stats (self w')) = tested (stats (self w)) + 1.
Proof.
  intros host Hfail. eexists. rewrite check_subdomain_eq. fold host.
  apply verdict_Unresolved in Hfail as Hv.
  assert (probe_trace env host (blank_result env host) (verbose (self w))
          = [Ev_gethostbyname host]) as ->.
  { unfold probe_trace. rewrite Hv. unfold resolved, resolution_failed, succeeded in *.
    destruct (gethostbyname env host); [done|]. by rewrite app_nil_r. }
  unfold probe_value, probe_self. rewrite Hv. cbn.
  repeat split; try done.
  intros url Hin. apply elem_of_app in Hin as [Hin|Hin]; [done|].
  apply elem_of_cons in Hin as [Hin|Hin]; [done|].
  by apply list_elem_of_singleton in Hin.
Qed.

Lemma resolution_failure_short_circuit_witness :
  ∃ w', check_subdomain env_example "ghost" {| self := enumerator_example; log := [] |}
        = (Returns None, w')
    ∧ log w' = [Ev_tested; Ev_gethostbyname "ghost.example.com"]
    ∧ errors (stats (self w')) = 0.
Proof.
  destruct (resolution_failure_short_circuit env_example "ghost"
              {| self := enumerator_example; log := [] |})
    as (w' & Hrun & Hlog & _ & _ & _ & Herr & _); [reflexivity|].
  exists w'. split; [exact Hrun|]. split; [exact Hlog|exact Herr].
Defined.

(** C6.  A run over the candidate list [cs] can always be brought to its
    end when the pool has at least one worker, and whenever a run is at
    its end, whatever the schedule was, [tested] has grown by the number
    of candidates, the finished probes are those of the candidates, each
    once (so without duplicates when the candidates have none), and each
    holds a value. *)
Theorem run_tests_every_candidate env o cs :
  (0 < max_threads o → ∃ s, reachable env o cs s ∧ completed s = true)
  ∧ (∀ s, reachable env o cs s → completed s = true →
       tested (stats (self (shared s))) = tested (stats o) + Z.of_nat (length cs)
       ∧ (finished s).*1 ≡ₚ cs
       ∧ (NoDup cs → NoDup (finished s).*1)
       ∧ (∀ c oc, (c, oc) ∈ finished s → oc = Returns (value_of env (domain o) c))).
Proof.
  split.
  - intros Hmax. destruct (complete_run_exists env o cs Hmax) as (s & Hrun & Hdone).
    exists s. split; [by eexists|done].
  - intros s Hreach Hdone. apply reachable_invariant in Hreach as Hinv.
    destruct (completed_candidates _ _ _ _ Hinv Hdone) as [Hperm Hcnt].
    split; [|split; [done|split]].
    + rewrite (inv_tested _ _ _ _ Hinv), Hcnt.
      rewrite <- (length_fmap fst (finished s)), Hperm. cbn. lia.
    + intros Hnd. by rewrite Hperm.
    + apply (inv_finished _ _ _ _ Hinv).
Qed.

Lemma run_tests_every_candidate_witness :
  ∃ s, reachable env_example enumerator_example ["www"; "api"; "ghost"] s
       ∧ completed s = true
       ∧ tested (stats (self (shared s))) = 3.
Proof.
  destruct (run_tests_every_candidate env_example enumerator_example
              ["www"; "api"; "ghost"]) as [Hex Hall].
  destruct Hex as (s & Hreach & Hdone); [reflexivity|].
  exists s. split; [exact Hreach|]. split; [exact Hdone|].
  exact (proj1 (Hall s Hreach Hdone)).
Defined.

(** C9.  In a run whose pool is created with [max_workers = max_threads],
    at least one, the probes in flight never outnumber [max_threads], in
    any state any schedule reaches; the run can be brought to its end,
    and at its end every candidate has been probed once. *)
Theorem in_flight_bounded env o cs :
  0 < max_threads o →
  (∀ s, reachable env o cs s →
     Z.of_nat (length (in_flight s)) ≤ max_threads o
     ∧ (completed s = true →
          (finished s).*1 ≡ₚ cs
          ∧ tested (stats (self (shared s))) = tested (stats o) + Z.of_nat (length cs)))
  ∧ (∃ s, reachable env o cs s ∧ completed s = true).
Proof.
  intros Hmax. split.
  - intros s Hreach. apply reachable_invariant in Hreach as Hinv. split.
    + pose proof (length_omap_le worker_task (workers s)) as Hle.
      unfold in_flight.
      destruct (inv_workers _ _ _ _ Hinv) as [Hnil|Hws]; [|lia].
      rewrite Hnil in *. cbn in *. lia.
    + intros Hdone.
      destruct (completed_candidates _ _ _ _ Hinv Hdone) as [Hperm Hcnt].
      split; [done|].
      rewrite (inv_tested _ _ _ _ Hinv), Hcnt.
      rewrite <- (length_fmap fst (finished s)), Hperm. cbn. lia.
  - destruct (complete_run_exists env o cs Hmax) as (s & Hrun & Hdone).
    exists s. split; [by eexists|done].
Qed.

Lemma in_flight_bounded_witness :
  ∃ s, run env_all_up schedule_two_in_flight
         (start enumerator_two_threads ["www"; "api"; "mail"]) = Some s
       ∧ in_flight s = ["www"; "api"]
       ∧ Z.of_nat (length (in_flight s)) ≤ 2.
Proof.
  eexists. split; [vm_compute; reflexivity|]. split; [reflexivity|].
  refine (proj1 (proj1 (in_flight_bounded env_all_up enumerator_two_threads
                          ["www"; "api"; "mail"] _) _ _)).
  - reflexivity.
  - exists schedule_two_in_flight. vm_compute. reflexivity.
Defined.

(** With two workers allowed and two started, a third is refused. *)
Example no_third_worker :
  run env_all_up (schedule_two_in_flight ++ [Submit_spawn])
    (start enumerator_two_threads ["www"; "api"; "mail"]) = None.
Proof. vm_compute. reflexivity. Qed.

(** C5.  In every state of a run that starts from a new enumerator,
    [discovered] and [errors] are at most [tested] (even their sum is).
    Every probe first increments [tested] and nothing else increments it;
    after that it increments [discovered] at most once and [errors] at
    most once, and the counters move exactly as those events say. *)
Theorem counters_consistent env :
  (∀ dom wl threads tmo out vb now cs s,
     reachable env (init dom wl threads tmo out vb now) cs s →
     discovered (stats (self (shared s))) ≤ tested (stats (self (shared s)))
     ∧ errors (stats (self (shared s))) ≤ tested (stats (self (shared s)))
     ∧ discovered (stats (self (shared s))) + errors (stats (self (shared s)))
       ≤ tested (stats (self (shared s))))
  ∧ (∀ sub w, ∃ v w' rest,
       check_subdomain env sub w = (Returns v, w')
       ∧ log w' = log w ++ Ev_tested :: rest
       ∧ occurrences Ev_tested rest = 0%nat
       ∧ (occurrences Ev_discovered rest ≤ 1)%nat
       ∧ (occurrences Ev_errors rest ≤ 1)%nat
       ∧ tested (stats (self w')) = tested (stats (self w)) + 1
       ∧ discovered (stats (self w'))
         = discovered (stats (self w)) + Z.of_nat (occurrences Ev_discovered rest)
       ∧ errors (stats (self w'))
         = errors (stats (self w)) + Z.of_nat (occurrences Ev_errors rest)).
Proof.
  split.
  - intros dom wl threads tmo out vb now cs s Hreach.
    apply reachable_invariant in Hreach as Hinv.
    pose proof (inv_tested _ _ _ _ Hinv) as Ht.
    pose proof (inv_discovered _ _ _ _ Hinv) as Hd.
    pose proof (inv_errors _ _ _ _ Hinv) as He.
    pose proof (found_faulted_le env dom (finished s).*1) as Hle.
    rewrite length_fmap in Hle. cbn in Ht, Hd, He, Hle. lia.
  - intros sub w.
    destruct (check_subdomain_counters env sub w)
      as (v & w' & rest & Hrun & Hlog & Ht & Hd & He & Hst & Hsd & Hse).
    exists v, w', rest. repeat split; try done.
    + rewrite Hd. destruct (discovers _ _); lia.
    + rewrite He. destruct (unexpected_failure _ _); lia.
Qed.

Lemma counters_consistent_witness :
  ∃ s, run env_example (one_by_one true ["www"; "api"; "ghost"])
         (start enumerator_example ["www"; "api"; "ghost"]) = Some s
       ∧ (tested (stats (self (shared s))),
          discovered (stats (self (shared s))),
          errors (stats (self (shared s)))) = (3, 1, 0)
       ∧ discovered (stats (self (shared s))) ≤ tested (stats (self (shared s))).
Proof.
  eexists. split; [vm_compute; reflexivity|]. split; [reflexivity|].
  refine (proj1 (proj1 (counters_consistent env_example)
    "example.com" "wordlists/subdomains.txt" 50 10 None false 0
    ["www"; "api"; "ghost"] _ _)).
  exists (one_by_one true ["www"; "api"; "ghost"]). vm_compute. reflexivity.
Defined.

(** C1, as stated, fails.  The host [www.example.com] resolves and its
    HTTP fetch succeeds, but the HTTPS fetch raises an exception that is
    not a [RequestException]: the probe ends in the [except Exception]
    handler and the host is not among the discovered ones at the end of
    the run. *)
Lemma reachable_host_not_discovered :
  ∃ s, run env_https_fault (one_by_one true ["www"]) (start enumerator_example ["www"])
       = Some s
    ∧ completed s = true
    ∧ ¬ ("www.example.com" ∈ subdomain <$> discovered_subdomains (self (shared s))
         ↔ resolved env_https_fault "www.example.com" = true
           ∧ (fetched env_https_fault (http_url "www.example.com") = true
              ∨ fetched env_https_fault (https_url "www.example.com") = true)).
Proof.
  eexists. split; [vm_compute; reflexivity|]. split; [reflexivity|].
  cbn. intros [_ Hback].
  assert ("www.example.com" ∈ @nil string) as Hin.
  { apply Hback. split; [reflexivity|]. left. reflexivity. }
  by apply elem_of_nil in Hin.
Qed.

(** C1, amended.  At the end of a run that started with no discovered
    host, the host of a candidate is among the discovered ones if and
    only if its name resolved, at least one of the two fetches succeeded,
    and neither fetch failed with an exception other than a
    [RequestException].  A probe appends its result in exactly that case
    and appends nothing otherwise; resolution alone never suffices. *)
Theorem discovered_iff env o cs :
  (∀ s, discovered_subdomains o = [] → reachable env o cs s → completed s = true →
     ∀ c, c ∈ cs →
       full_name c (domain o) ∈ subdomain <$> discovered_subdomains (self (shared s))
       ↔ resolved env (full_name c (domain o)) = true
         ∧ (fetched env (http_url (full_name c (domain o))) = true
            ∨ fetched env (https_url (full_name c (domain o))) = true)
         ∧ fetch_fault env (http_url (full_name c (domain o))) = false
         ∧ fetch_fault env (https_url (full_name c (domain o))) = false)
  ∧ (∀ sub w, ∃ v w',
       check_subdomain env sub w = (Returns v, w')
       ∧ if discovers env (full_name sub (domain (self w)))
         then ∃ r, v = Some r
                ∧ subdomain r = full_name sub (domain (self w))
                ∧ discovered_subdomains (self w') = discovered_subdomains (self w) ++ [r]
         else v = None
              ∧ discovered_subdomains (self w') = discovered_subdomains (self w)).
Proof.
  split.
  - intros s Hnil Hreach Hdone c Hc. rewrite <- discovers_spec.
    apply reachable_invariant in Hreach as Hinv.
    destruct (completed_candidates _ _ _ _ Hinv Hdone) as [Hperm _].
    split.
    + intros Hin. apply list_elem_of_fmap in Hin as (r & Hr & Hin).
      destruct (discovered_entry env o cs s r Hnil Hreach Hin) as (Hd & _ & _).
      by rewrite Hr.
    + intros Hd. apply list_elem_of_fmap.
      exists (found_result env (full_name c (domain o))
                (blank_result env (full_name c (domain o)))).
      split; [by rewrite found_result_subdomain|].
      rewrite (inv_discovered_subdomains _ _ _ _ Hinv), Hnil. cbn.
      apply list_elem_of_omap. exists c. split; [by rewrite Hperm|].
      unfold value_of. by apply probe_value_Some.
  - intros sub w. do 2 eexists. split; [apply check_subdomain_eq|].
    cbn [self log]. rewrite probe_self_discovered_subdomains. cbn.
    set (host := full_name sub (domain (self w))).
    destruct (discovers env host) eqn:Hd.
    + eexists. split; [by apply probe_value_Some|].
      split; [apply found_result_subdomain|].
      apply verdict_Found in Hd. unfold probe_value. by rewrite Hd.
    + apply (probe_value_None env host (blank_result env host)) in Hd.
      rewrite Hd. cbn. by rewrite app_nil_r.
Qed.

Lemma discovered_iff_witness :
  ∃ s, run env_example (one_by_one true ["www"; "api"; "ghost"])
         (start enumerator_example ["www"; "api"; "ghost"]) = Some s
    ∧ "www.example.com" ∈ subdomain <$> discovered_subdomains (self (shared s)).
Proof.
  eexists. split; [vm_compute; reflexivity|].
  refine (proj2 (proj1 (discovered_iff env_example enumerator_example
                          ["www"; "api"; "ghost"]) _ _ _ _ "www" _) _).
  - reflexivity.
  - exists (one_by_one true ["www"; "api"; "ghost"]). vm_compute. reflexivity.
  - reflexivity.
  - apply elem_of_cons. left. reflexivity.
  - vm_compute. repeat split. left. reflexivity.
Defined.

(** C2 at a concrete run: [www] is found before [api].  [save_results]
    writes the hosts in that order in each of its three formats, which is
    not ascending, while [display_summary] prints [api] first. *)
Lemma save_results_keeps_completion_order :
  ∃ s, run env_all_up (one_by_one true ["www"; "api"]) (start enumerator_example ["www"; "api"])
       = Some s
    ∧ completed s = true
    ∧ saved_hosts (save_results (self (shared s)) "results.json")
      = ["www.example.com"; "api.example.com"]
    ∧ saved_hosts (save_results (self (shared s)) "results.csv")
      = ["www.example.com"; "api.example.com"]
    ∧ saved_hosts (save_results (self (shared s)) "results.txt")
      = ["www.example.com"; "api.example.com"]
    ∧ ¬ ascending ["www.example.com"; "api.example.com"]
    ∧ subdomain <$> display_summary (self (shared s))
      = ["api.example.com"; "www.example.com"]
    ∧ ascending ["api.example.com"; "www.example.com"].
Proof.
  eexists. split; [vm_compute; reflexivity|].
  repeat split; try (vm_compute; reflexivity).
  - intros Hs. apply Sorted_inv in Hs as [_ Hhd]. apply HdRel_inv in Hhd.
    vm_compute in Hhd. exact Hhd.
  - repeat constructor.
Qed.

(** C8, as stated, fails.  The HTTP response of [www.example.com] carries
    the header [Server: Unknown] and the HTTPS response [Server: nginx]:
    the entry gets [nginx], not the header of the HTTP response. *)
Lemma http_banner_not_always_kept :
  ∃ r w', check_subdomain env_unknown_banner "www" {| self := enumerator_example; log := [] |}
          = (Returns (Some r), w')
    ∧ supplied_Server env_unknown_banner (http_url (subdomain r)) = Some "Unknown"
    ∧ server r = Some "nginx"
    ∧ ¬ (∀ h, supplied_Server env_unknown_banner (http_url (subdomain r)) = Some h →
              server r = Some h).
Proof.
  do 2 eexists. split; [vm_compute; reflexivity|].
  split; [reflexivity|]. split; [reflexivity|].
  intros Hall. specialize (Hall "Unknown" eq_refl). discriminate Hall.
Qed.

(** C8, amended.  For every entry of [discovered_subdomains] in a run
    that started with none: when the HTTP response carries a [Server]
    header that is neither empty nor ['Unknown'], [server] is that header;
    otherwise, when the HTTPS fetch succeeded, [server] is the [Server]
    header of the HTTPS response, or ['Unknown'] if it has none.  In
    particular, when the HTTP fetch did not succeed and the HTTPS response
    carries a [Server] header, [server] is that header. *)
Theorem server_banner_source env o cs s r :
  discovered_subdomains o = [] → reachable env o cs s →
  r ∈ discovered_subdomains (self (shared s)) →
  (∀ h, supplied_Server env (http_url (subdomain r)) = Some h →
        h ≠ "" → h ≠ "Unknown" → server r = Some h)
  ∧ (yields_banner env (http_url (subdomain r)) = false →
     fetched env (https_url (subdomain r)) = true →
     server r = Some (default "Unknown" (supplied_Server env (https_url (subdomain r)))))
  ∧ (∀ h, fetched env (http_url (subdomain r)) = false →
          supplied_Server env (https_url (subdomain r)) = Some h →
          server r = Some h).
Proof.
  intros Hnil Hreach Hin.
  destruct (discovered_entry env o cs s r Hnil Hreach Hin) as (Hd & Hr & _).
  destruct (found_result_server env (subdomain r) Hd) as (Hhttp & Hhttps & _).
  cbn zeta in Hhttp, Hhttps. rewrite <- Hr in Hhttp, Hhttps.
  split; [|split].
  - intros h Hh Hne Hunk. rewrite <- Hh. apply Hhttp.
    unfold yields_banner. rewrite Hh.
    destruct h; [done|]. cbn. by rewrite bool_decide_eq_false_2.
  - exact Hhttps.
  - intros h Hnot Hh.
    assert (yields_banner env (http_url (subdomain r)) = false) as Hy.
    { unfold yields_banner, supplied_Server, fetched, succeeded in *.
      by destruct (session_get env (http_url (subdomain r))). }
    assert (fetched env (https_url (subdomain r)) = true) as Hf.
    { unfold supplied_Server, fetched, succeeded in *.
      by destruct (session_get env (https_url (subdomain r))). }
    rewrite (Hhttps Hy Hf), Hh. done.
Qed.

Lemma server_banner_source_witness :
  ∃ s r, run env_https_only (one_by_one true ["www"]) (start enumerator_example ["www"])
         = Some s
    ∧ discovered_subdomains (self (shared s)) = [r]
    ∧ http_accessible r = false
    ∧ server r = Some "nginx".
Proof.
  do 2 eexists. split; [vm_compute; reflexivity|]. split; [reflexivity|].
  split; [reflexivity|].
  refine (proj2 (proj2 (server_banner_source env_https_only enumerator_example
                          ["www"] _ _ _ _ _)) "nginx" _ _).
  - reflexivity.
  - exists (one_by_one true ["www"]). vm_compute. reflexivity.
  - apply elem_of_cons. left. reflexivity.
  - reflexivity.
  - reflexivity.
Defined.

(** C10.  Every entry of [discovered_subdomains], in any state of a run
    that started with none, has a string in [server] and a string in
    [ip_address]; when no response to either scheme supplies a [Server]
    header, [server] is the string ['Unknown']. *)
Theorem discovered_entry_fields env o cs s r :
  discovered_subdomains o = [] → reachable env o cs s →
  r ∈ discovered_subdomains (self (shared s)) →
  (∃ srv, server r = Some srv)
  ∧ (∃ ip, ip_address r = Some ip)
  ∧ (supplied_Server env (http_url (subdomain r)) = None →
     supplied_Server env (https_url (subdomain r)) = None →
     server r = Some "Unknown").
Proof.
  intros Hnil Hreach Hin.
  destruct (discovered_entry env o cs s r Hnil Hreach Hin) as (Hd & Hr & _).
  destruct (found_result_fields env (subdomain r) Hd) as (Hip & Hsrv & Hunk).
  cbn zeta in Hip, Hsrv, Hunk. rewrite <- Hr in Hip, Hsrv, Hunk. done.
Qed.

Lemma discovered_entry_fields_witness :
  ∃ s r, run env_example (one_by_one true ["www"; "api"; "ghost"])
           (start enumerator_example ["www"; "api"; "ghost"]) = Some s
    ∧ discovered_subdomains (self (shared s)) = [r]
    ∧ (∃ srv, server r = Some srv)
    ∧ (∃ ip, ip_address r = Some ip).
Proof.
  do 2 eexists. split; [vm_compute; reflexivity|]. split; [reflexivity|].
  refine ((λ H, conj (proj1 H) (proj1 (proj2 H)))
            (discovered_entry_fields env_example enumerator_example
               ["www"; "api"; "ghost"] _ _ _ _ _)).
  - reflexivity.
  - exists (one_by_one true ["www"; "api"; "ghost"]). vm_compute. reflexivity.
  - apply elem_of_cons. left. reflexivity.
Defined.

End Claims.

(* ===================================================================== *)
(** * Further properties of the code *)
(* ===================================================================== *)

(** ** Strings: suffixes and cancellation *)

Module StringFacts.
Import Enumerator.

Lemma list_of_app (s1 s2 : string) :
  String.list_ascii_of_string (s1 +:+ s2)
  = String.list_ascii_of_string s1 ++ String.list_ascii_of_string s2.
Proof. induction s1 as [|c s1 IH]; cbn; [done|]. by rewrite <- IH. Qed.

Lemma list_of_inj (s1 s2 : string) :
  String.list_ascii_of_string s1 = String.list_ascii_of_string s2 → s1 = s2.
Proof.
  intros H. rewrite <- (String.string_of_list_ascii_of_string s1),
    <- (String.string_of_list_ascii_of_string s2). by rewrite H.
Qed.

Lemma app_cancel_r (s1 s2 t : string) : s1 +:+ t = s2 +:+ t → s1 = s2.
Proof.
  intros H. apply list_of_inj. apply (f_equal String.list_ascii_of_string) in H.
  rewrite !list_of_app in H. by apply app_inv_tail in H.
Qed.

Lemma list_of_rev_app (s acc : string) :
  String.list_ascii_of_string (String.rev_app s acc)
  = reverse (String.list_ascii_of_string s) ++ String.list_ascii_of_string acc.
Proof.
  revert acc. induction s as [|c s IH]; intros acc;
    cbn [String.rev_app String.list_ascii_of_string]; [done|].
  rewrite IH, reverse_cons, <- app_assoc. done.
Qed.

Lemma list_of_rev (s : string) :
  String.list_ascii_of_string (String.rev s) = reverse (String.list_ascii_of_string s).
Proof. unfold String.rev. rewrite list_of_rev_app. cbn. by rewrite app_nil_r. Qed.

Lemma rev_app (s1 s2 : string) :
  String.rev (s1 +:+ s2) = String.rev s2 +:+ String.rev s1.
Proof.
  apply list_of_inj.
  by rewrite list_of_app, !list_of_rev, list_of_app, reverse_app.
Qed.

Lemma rev_involutive (s : string) : String.rev (String.rev s) = s.
Proof. apply list_of_inj. by rewrite !list_of_rev, reverse_involutive. Qed.

Lemma prefix_spec (s1 s2 : string) :
  String.prefix s1 s2 = true ↔ ∃ t, s2 = s1 +:+ t.
Proof.
  revert s2. induction s1 as [|c s1 IH]; intros s2; cbn.
  - split; [intros _; by exists s2|intros _; by destruct s2].
  - destruct s2 as [|d s2]; cbn.
    + split; [done|]. by intros [t Ht].
    + destruct (ascii_dec c d) as [->|Hne].
      * rewrite IH. split; intros [t Ht]; exists t; [by rewrite Ht|].
        by injection Ht.
      * split; [done|]. intros [t Ht]. injection Ht as Hd _. congruence.
Qed.

(** [endswith] is the suffix test. *)
Lemma endswith_spec (s suffix : string) :
  endswith s suffix = true ↔ ∃ p, s = p +:+ suffix.
Proof.
  unfold endswith. rewrite prefix_spec. split.
  - intros [t Ht]. exists (String.rev t).
    rewrite <- (rev_involutive s), Ht, rev_app. by rewrite rev_involutive.
  - intros [q ->]. exists (String.rev q). apply rev_app.
Qed.

Lemma endswith_false (s suffix : string) :
  endswith s suffix = false ↔ ¬ ∃ p, s = p +:+ suffix.
Proof.
  rewrite <- endswith_spec. by destruct (endswith s suffix).
Qed.

End StringFacts.

(** ** Runs of the pool: growth, length and progress *)

Module RunFacts.
Import Py Enumerator Spec Pool Driver ProbeFacts PoolFacts.

Local Arguments probe_enter : simpl never.
Local Arguments probe_body : simpl never.

Lemma run_app env sched1 sched2 s :
  run env (sched1 ++ sched2) s = run env sched1 s ≫= run env sched2.
Proof.
  revert s. induction sched1 as [|a sched1 IH]; intros s; cbn; [done|].
  destruct (exec env a s); cbn; [apply IH|done].
Qed.

Lemma reachable_run env o cs sched s s' :
  reachable env o cs s → run env sched s = Some s' → reachable env o cs s'.
Proof.
  intros [sched0 H0] Hrun. exists (sched0 ++ sched).
  rewrite run_app, H0. exact Hrun.
Qed.

(** One step changes the counters by at most one, never downwards, and
    only adds to the finished probes. *)
Lemma exec_grows env o0 cs a s s' :
  run_invariant env o0 cs s → exec env a s = Some s' →
  finished s `prefix_of` finished s'
  ∧ tested (stats (self (shared s))) ≤ tested (stats (self (shared s')))
  ∧ discovered (stats (self (shared s))) ≤ discovered (stats (self (shared s')))
  ∧ errors (stats (self (shared s))) ≤ errors (stats (self (shared s'))).
Proof.
  destruct s as [p q ws fs sh]. intros Hinv.
  pose proof (inv_locals _ _ _ _ Hinv) as Hloc.
  pose proof (inv_domain _ _ _ _ Hinv) as Hdom. clear Hinv. cbn in Hloc, Hdom.
  destruct a as [| |i|i|i]; unfold exec;
    cbn [pending work_queue workers finished shared].
  - destruct p; [done|]. case_bool_decide; [|done]. intros [= <-]. cbn. done.
  - destruct p; [done|]. destruct ws; [done|]. intros [= <-]. cbn. done.
  - destruct (ws !! i) as [[| |]|]; try done. destruct q; [done|].
    intros [= <-]. cbn. done.
  - destruct (ws !! i) as [[|c|]|]; try done. rewrite probe_enter_eq.
    intros [= <-]. cbn. repeat split; try done. lia.
  - destruct (ws !! i) as [[| |c full r]|] eqn:Hi; try done.
    destruct (Hloc c full r) as [-> ->]; [by eapply list_elem_of_lookup_2|].
    rewrite probe_body_eq. intros [= <-]. cbn [finished shared self].
    pose proof (probe_self_frame env (full_name c (domain o0))
      (blank_result env (full_name c (domain o0))) (self sh))
      as (_ & _ & _ & _ & Hf).
    rewrite Hf, probe_self_discovered, probe_self_errors.
    repeat split; try lia.
    + by apply prefix_app_r.
    + destruct (unexpected_failure _ _); lia.
Qed.

Lemma run_grows env o0 cs sched s s' :
  run_invariant env o0 cs s → run env sched s = Some s' →
  finished s `prefix_of` finished s'
  ∧ tested (stats (self (shared s))) ≤ tested (stats (self (shared s')))
  ∧ discovered (stats (self (shared s))) ≤ discovered (stats (self (shared s')))
  ∧ errors (stats (self (shared s))) ≤ errors (stats (self (shared s'))).
Proof.
  revert s. induction sched as [|a sched IH]; intros s Hinv; cbn.
  - intros [= <-]. repeat split; done.
  - destruct (exec env a s) as [s1|] eqn:Hs; [|done]. intros Hrun.
    destruct (exec_grows _ _ _ _ _ _ Hinv Hs) as (Hp & Ht & Hd & He).
    destruct (IH s1 (exec_invariant _ _ _ _ _ _ Hinv Hs) Hrun)
      as (Hp' & Ht' & Hd' & He').
    repeat split; try lia. by etrans.
Qed.

Lemma omap_prefix {A B} (f : A → option B) (l1 l2 : list A) :
  l1 `prefix_of` l2 → omap f l1 `prefix_of` omap f l2.
Proof. intros [k ->]. rewrite omap_app. by eexists. Qed.

End RunFacts.

(** ** Results across runs *)

Module ResultSetFacts.
Import Py Enumerator Spec Pool Driver ProbeFacts PoolFacts ResultFacts RunFacts StringFacts.

Lemma omap_submseteq {A B} (f : A → option B) (l1 l2 : list A) :
  l1 ⊆+ l2 → omap f l1 ⊆+ omap f l2.
Proof.
  intros H. apply submseteq_Permutation in H as [k Hk].
  rewrite Hk, omap_app. by apply submseteq_inserts_r.
Qed.

Lemma submseteq_NoDup {A} (l1 l2 : list A) : l1 ⊆+ l2 → NoDup l2 → NoDup l1.
Proof.
  intros H Hnd. apply submseteq_Permutation in H as [k Hk].
  rewrite Hk in Hnd. by apply NoDup_app in Hnd as [? _].
Qed.

(** The finished probes of a reachable state are among the candidates. *)
Lemma finished_candidates env o cs s :
  run_invariant env o cs s → (finished s).*1 ⊆+ cs.
Proof.
  intros Hinv. rewrite (inv_candidates _ _ _ _ Hinv).
  do 3 apply submseteq_inserts_l. done.
Qed.

Lemma full_name_inj dom : Inj (=) (=) (λ c, full_name c dom).
Proof. intros c1 c2 H. unfold full_name in H. by apply app_cancel_r in H. Qed.

(** The hosts of the values of a list of probes, in order, are among the
    hosts of the probes. *)
Lemma value_hosts_sublist env dom (l : list string) :
  subdomain <$> omap (value_of env dom) l
  `sublist_of` (λ c, full_name c dom) <$> l.
Proof.
  induction l as [|c l IH]; cbn; [done|].
  destruct (value_of env dom c) as [r|] eqn:Hv; cbn.
  - apply probe_value_Some in Hv as [_ ->]. rewrite found_result_subdomain.
    by apply sublist_skip.
  - by apply sublist_cons.
Qed.

(** The discovered entries and the counters at the end of a run, in
    terms of the candidates. *)
Lemma completed_results env o cs s :
  reachable env o cs s → completed s = true →
  discovered_subdomains (self (shared s))
    ≡ₚ discovered_subdomains o ++ omap (value_of env (domain o)) cs
  ∧ tested (stats (self (shared s))) = tested (stats o) + Z.of_nat (length cs)
  ∧ discovered (stats (self (shared s)))
    = discovered (stats o) + Z.of_nat (length (omap (value_of env (domain o)) cs))
  ∧ errors (stats (self (shared s)))
    = errors (stats o)
      + Z.of_nat (length (filter (λ c, faulted env (domain o) c = true) cs)).
Proof.
  intros Hreach Hdone. apply reachable_invariant in Hreach as Hinv.
  destruct (completed_candidates _ _ _ _ Hinv Hdone) as [Hperm Hcnt].
  rewrite (inv_discovered_subdomains _ _ _ _ Hinv), (inv_tested _ _ _ _ Hinv),
    (inv_discovered _ _ _ _ Hinv), (inv_errors _ _ _ _ Hinv), Hcnt.
  rewrite <- (length_fmap fst (finished s)), Hperm. cbn.
  split; [done|]. repeat split; lia.
Qed.

Lemma invariant_hosts_NoDup env o cs s :
  NoDup cs → discovered_subdomains o = [] → run_invariant env o cs s →
  NoDup (subdomain <$> discovered_subdomains (self (shared s))).
Proof.
  intros Hnd Hnil Hinv.
  rewrite (inv_discovered_subdomains _ _ _ _ Hinv), Hnil. cbn.
  refine (sublist_NoDup _ _ _ (value_hosts_sublist env (domain o) (finished s).*1)).
  apply (NoDup_fmap_2 (λ c, full_name c (domain o))
           (Inj0 := full_name_inj (domain o))).
  eapply submseteq_NoDup; [by eapply finished_candidates|done].
Qed.

(** The hosts among the values of a list of probes. *)
Lemma elem_of_value_hosts env dom (l : list string) host :
  host ∈ subdomain <$> omap (value_of env dom) l
  ↔ ∃ c, c ∈ l ∧ host = full_name c dom ∧ discovers env host = true.
Proof.
  rewrite list_elem_of_fmap. split.
  - intros (r & -> & Hr). apply list_elem_of_omap in Hr as (c & Hc & Hv).
    apply probe_value_Some in Hv as [Hd ->]. rewrite found_result_subdomain.
    by exists c.
  - intros (c & Hc & -> & Hd).
    exists (found_result env (full_name c dom) (blank_result env (full_name c dom))).
    split; [by rewrite found_result_subdomain|].
    apply list_elem_of_omap. exists c. split; [done|]. by apply probe_value_Some.
Qed.

Lemma sorted_by_subdomain_fixed l :
  Sorted String.le (subdomain <$> l) → sorted_by_subdomain l = l.
Proof.
  unfold sorted_by_subdomain.
  induction l as [|x l IH]; cbn; [done|]. intros Hs.
  apply Sorted_inv in Hs as [Hs Hhd]. rewrite (IH Hs).
  destruct l as [|y l]; cbn; [done|].
  apply HdRel_inv in Hhd. apply leb_le in Hhd. by rewrite Hhd.
Qed.

End ResultSetFacts.

(** ** The shape of a probe *)

Module ShapeFacts.
Import Py Enumerator Spec Pool Driver ProbeFacts PoolFacts ResultFacts RunFacts.

Local Arguments probe_enter : simpl never.
Local Arguments probe_body : simpl never.

(** The fields of a discovered entry, read off the environment. *)
Lemma found_result_shape env host :
  discovers env host = true →
  let r := found_result env host (blank_result env host) in
  gethostbyname env host = Returns (default "" (ip_address r))
  ∧ is_Some (ip_address r)
  ∧ match session_get env (http_url host) with
    | Returns resp => http_accessible r = true ∧ http_status r = Some (status_code resp)
    | Raises _ => http_accessible r = false ∧ http_status r = None
    end
  ∧ match session_get env (https_url host) with
    | Returns resp => https_accessible r = true ∧ https_status r = Some (status_code resp)
    | Raises _ => https_accessible r = false ∧ https_status r = None
    end
  ∧ (http_accessible r || https_accessible r) = true
  ∧ discovered_at r = now_isoformat env host.
Proof.
  unfold_spec. env_cases env host; intros Hd; try done; repeat split; by eexists.
Qed.

Lemma url_ne host : http_url host ≠ https_url host.
Proof. unfold http_url, https_url. intros H. vm_compute in H. discriminate H. Qed.

Ltac split_elems :=
  repeat match goal with
    | H : _ ∈ _ :: _ |- _ => apply elem_of_cons in H as [H|H]
    | H : _ ∈ [] |- _ => apply elem_of_nil in H; destruct H
    end.

Ltac close_elems :=
  intros; split_elems; simplify_eq; try done;
  rewrite ?elem_of_cons; try (intuition congruence).

(** The network calls of the [try] statement. *)
Lemma probe_trace_calls env host r v :
  NoDup (probe_trace env host r v)
  ∧ (Ev_tested ∉ probe_trace env host r v)
  ∧ (∀ h, Ev_gethostbyname h ∈ probe_trace env host r v ↔ h = host)
  ∧ (∀ url, Ev_get url ∈ probe_trace env host r v →
       resolved env host = true ∧ (url = http_url host ∨ url = https_url host))
  ∧ (Ev_get (https_url host) ∈ probe_trace env host r v →
       Ev_get (http_url host) ∈ probe_trace env host r v).
Proof.
  pose proof (url_ne host) as Hne.
  unfold probe_trace, verdict_of, unexpected_failure, resolution_failed,
    resolution_fault, resolved, fetched, fetch_fault, succeeded.
  destruct (gethostbyname env host) as [ip|[]];
    destruct (session_get env (http_url host)) as [resp1|[]];
    destruct (session_get env (https_url host)) as [resp2|[]];
    destruct v; cbn;
    (split; [repeat (apply NoDup_cons; split; [intros Hin; close_elems|]);
             apply NoDup_nil_2|]);
    (split; [intros Hin; close_elems|]);
    (split; [intros h; split; [close_elems|intros ->; apply elem_of_cons; by left]|]);
    (split; [intros url Hin; split_elems; simplify_eq; by auto|]);
    close_elems.
Qed.

(** The single worker's run is the loop of [check_subdomain]. *)
Lemma check_subdomain_steps env c sh :
  (check_subdomain env c sh).2
  = (probe_body env (full_name c (domain (self sh)))
       (blank_result env (full_name c (domain (self sh))))
       {| self := set_stats incr_tested (self sh); log := log sh ++ [Ev_tested] |}).2.
Proof.
  unfold check_subdomain, bind. rewrite probe_enter_eq. cbn [fst snd].
  by destruct (probe_body _ _ _ _) as [[v|e] w'].
Qed.

Lemma one_by_one_in_turn env cs s :
  pending s = cs → work_queue s = [] → workers s = [Idle] →
  ∃ s', run env (one_by_one false cs) s = Some s'
        ∧ completed s' = true
        ∧ shared s' = check_in_turn env cs (shared s).
Proof.
  revert s. induction cs as [|c cs IH]; intros [p q ws fs sh];
    cbn [pending work_queue workers shared]; intros -> -> ->.
  - by eexists.
  - cbn. rewrite probe_enter_eq. cbn.
    pose proof (check_subdomain_steps env c sh) as Hstep.
    destruct (probe_body env _ _ _) as [oc w'] eqn:Hb. cbn in Hstep.
    edestruct (IH {| pending := cs; work_queue := []; workers := [Idle];
                     finished := fs ++ [(c, oc)]; shared := w' |})
      as (s' & Hrun & Hdone & Hsh); [done..|].
    exists s'. split; [exact Hrun|]. split; [exact Hdone|].
    rewrite Hsh. cbn. by rewrite Hstep.
Qed.

End ShapeFacts.

(** ** Lines of the wordlist *)

Module LineFacts.
Import Text TextFacts Enumerator Driver StringFacts.

Local Abbreviation chars := String.list_ascii_of_string.

Lemma has_line_break_false s :
  has_line_break s = false ↔ (LF ∉ chars s) ∧ (CR ∉ chars s).
Proof.
  induction s as [|c s IH]; cbn [has_line_break String.list_ascii_of_string].
  - split; [intros _; split; apply not_elem_of_nil|done].
  - rewrite !orb_false_iff, IH, !not_elem_of_cons, !Ascii.eqb_neq.
    split; [intros [[??] [??]]|intros [[??] [??]]]; repeat split; congruence.
Qed.

(** After newline translation no CR is left. *)
Lemma translate_newlines_no_CR s :
  (CR ∉ chars (translate_newlines s))
  ∧ ∀ c, CR ∉ chars (translate_newlines (String c s)).
Proof.
  induction s as [|d s [IH1 IH2]].
  - split; [apply not_elem_of_nil|]. intros c. cbn [translate_newlines].
    destruct (Ascii.eqb c CR) eqn:Hc; cbn [String.list_ascii_of_string];
      rewrite not_elem_of_cons; (split; [|apply not_elem_of_nil]); [done|].
    apply Ascii.eqb_neq in Hc. congruence.
  - split; [apply IH2|]. intros c.
    cbn [translate_newlines].
    destruct (Ascii.eqb c CR) eqn:Hc.
    + destruct (Ascii.eqb d LF); cbn [String.list_ascii_of_string];
        rewrite not_elem_of_cons; (split; [done|]); [apply IH1|apply IH2].
    + cbn [String.list_ascii_of_string]. rewrite not_elem_of_cons.
      split; [|apply IH2]. apply Ascii.eqb_neq in Hc. congruence.
Qed.

(** A line of a text without CR is a body without line break, followed
    by LF or by nothing. *)
Lemma iter_lines_body t l :
  CR ∉ chars t → l ∈ iter_lines t →
  ∃ body, (l = body ∨ l = body +:+ String LF "")
          ∧ (LF ∉ chars body) ∧ (CR ∉ chars body).
Proof.
  revert l. induction t as [|c t IH]; intros l Hcr; cbn [iter_lines].
  - intros Hin. by apply elem_of_nil in Hin.
  - cbn [String.list_ascii_of_string] in Hcr.
    apply not_elem_of_cons in Hcr as [Hc Hcr].
    destruct (Ascii.eqb c LF) eqn:Hlf.
    + apply Ascii.eqb_eq in Hlf as ->. intros Hin.
      apply elem_of_cons in Hin as [->|Hin]; [|by apply IH].
      exists "". split; [by right|]. split; apply not_elem_of_nil.
    + apply Ascii.eqb_neq in Hlf.
      destruct (iter_lines t) as [|l0 ls] eqn:Hls.
      * intros Hin. apply list_elem_of_singleton in Hin as ->.
        exists (String c ""). split; [by left|].
        cbn [String.list_ascii_of_string]. rewrite !not_elem_of_cons.
        split; (split; [congruence|apply not_elem_of_nil]).
      * intros Hin. apply elem_of_cons in Hin as [->|Hin].
        -- destruct (IH l0 Hcr) as (body & Hb & Hb1 & Hb2); [left|].
           exists (String c body). split.
           ++ destruct Hb as [->| ->]; [by left|by right].
           ++ cbn [String.list_ascii_of_string]. rewrite !not_elem_of_cons.
              split; split; congruence || done.
        -- apply IH; [done|]. by right.
Qed.

Lemma rstrip_app_space s c :
  isspace c = true → rstrip (s +:+ String c "") = rstrip s.
Proof.
  intros Hc. induction s as [|d s IH].
  - change ("" +:+ String c "") with (String c "").
    cbn [rstrip]. by rewrite Hc.
  - change (String d s +:+ String c "") with (String d (s +:+ String c "")).
    cbn [rstrip]. by rewrite IH.
Qed.

Lemma rstrip_chars s x : x ∈ chars (rstrip s) → x ∈ chars s.
Proof.
  induction s as [|c s IH]; cbn; [done|].
  destruct (rstrip s) as [|d r] eqn:Hr.
  - destruct (isspace c); cbn; [intros Hin; by apply elem_of_nil in Hin|].
    intros Hin. apply list_elem_of_singleton in Hin as ->. by left.
  - cbn. intros Hin. apply elem_of_cons in Hin as [->|Hin]; [by left|].
    right. by apply IH.
Qed.

Lemma lstrip_chars s x : x ∈ chars (lstrip s) → x ∈ chars s.
Proof.
  induction s as [|c s IH]; cbn; [done|].
  destruct (isspace c); [|done]. intros Hin. right. by apply IH.
Qed.

Lemma lower_char_LF c : lower_char c = LF → c = LF.
Proof.
  destruct c as [[] [] [] [] [] [] [] []]; vm_compute; intros H;
    first [reflexivity | discriminate H].
Qed.

Lemma lower_char_CR c : lower_char c = CR → c = CR.
Proof.
  destruct c as [[] [] [] [] [] [] [] []]; vm_compute; intros H;
    first [reflexivity | discriminate H].
Qed.

Lemma lower_chars s x : x ∈ chars (lower s) → ∃ c, c ∈ chars s ∧ x = lower_char c.
Proof.
  induction s as [|c s IH]; cbn; [intros Hin; by apply elem_of_nil in Hin|].
  intros Hin. apply elem_of_cons in Hin as [->|Hin].
  - exists c. split; [by left|done].
  - destruct (IH Hin) as (c' & Hc' & ->). exists c'. split; [by right|done].
Qed.

(** A normalized line has no line break. *)
Lemma normalized_line_unbroken content line :
  line ∈ iter_lines (translate_newlines content) →
  has_line_break (lower (strip line)) = false.
Proof.
  intros Hin.
  destruct (iter_lines_body _ _ (proj1 (translate_newlines_no_CR content)) Hin)
    as (body & Hb & Hlf & Hcr).
  assert (∀ x, x ∈ chars (strip line) → x ∈ chars body) as Hsub.
  { intros x Hx. unfold strip in Hx. apply lstrip_chars in Hx.
    destruct Hb as [->| ->]; [by apply rstrip_chars|].
    rewrite rstrip_app_space in Hx by done. by apply rstrip_chars. }
  apply has_line_break_false. split; intros Hx;
    apply lower_chars in Hx as (c & Hc & Heq); symmetry in Heq.
  - apply lower_char_LF in Heq as ->. by apply Hlf, Hsub.
  - apply lower_char_CR in Heq as ->. by apply Hcr, Hsub.
Qed.

End LineFacts.

(* ===================================================================== *)
(** * Further theorems *)
(* ===================================================================== *)

Module Extras.
Import Py Enumerator Spec Pool Driver Scenario.
Import ProbeFacts PoolFacts CounterFacts ResultFacts StringFacts RunFacts ResultSetFacts ShapeFacts LineFacts.

(** X1.  A run only ever adds: from any state of a run to any later one,
    the discovered entries of the earlier state are the first entries of
    the later one, unchanged, and none of the three counters has gone
    down. *)
Theorem results_only_grow env o cs sched s s' :
  reachable env o cs s → run env sched s = Some s' →
  discovered_subdomains (self (shared s))
    `prefix_of` discovered_subdomains (self (shared s'))
  ∧ tested (stats (self (shared s))) ≤ tested (stats (self (shared s')))
  ∧ discovered (stats (self (shared s))) ≤ discovered (stats (self (shared s')))
  ∧ errors (stats (self (shared s))) ≤ errors (stats (self (shared s'))).
Proof.
  intros Hreach Hrun. apply reachable_invariant in Hreach as Hinv.
  pose proof (run_invariant_preserved _ _ _ _ _ _ Hinv Hrun) as Hinv'.
  destruct (run_grows _ _ _ _ _ _ Hinv Hrun) as ([k Hk] & Ht & Hd & He).
  split; [|done].
  rewrite (inv_discovered_subdomains _ _ _ _ Hinv),
    (inv_discovered_subdomains _ _ _ _ Hinv'), Hk, fmap_app, omap_app.
  apply prefix_app, prefix_app_r. done.
Qed.

Lemma results_only_grow_witness :
  ∃ s s', run env_all_up (one_by_one true ["www"]) (start enumerator_example ["www"; "api"])
          = Some s
    ∧ run env_all_up (one_by_one false ["api"]) s = Some s'
    ∧ length (discovered_subdomains (self (shared s))) = 1%nat
    ∧ discovered_subdomains (self (shared s))
        `prefix_of` discovered_subdomains (self (shared s')).
Proof.
  do 2 eexists. split; [vm_compute; reflexivity|].
  split; [vm_compute; reflexivity|]. split; [reflexivity|].
  refine (proj1 (results_only_grow env_all_up enumerator_example ["www"; "api"]
                   (one_by_one false ["api"]) _ _ _ _)).
  - exists (one_by_one true ["www"]). vm_compute. reflexivity.
  - vm_compute. reflexivity.
Defined.

(** X2.  In every state of a run that starts from a new enumerator, the
    [discovered] counter is the number of entries of
    [discovered_subdomains]. *)
Theorem discovered_counts_entries env dom wl threads tmo out vb now cs s :
  reachable env (init dom wl threads tmo out vb now) cs s →
  discovered (stats (self (shared s)))
  = Z.of_nat (length (discovered_subdomains (self (shared s)))).
Proof.
  intros Hreach. apply reachable_invariant in Hreach as Hinv.
  rewrite (inv_discovered _ _ _ _ Hinv),
    (inv_discovered_subdomains _ _ _ _ Hinv). cbn. lia.
Qed.

Lemma discovered_counts_entries_witness :
  ∃ s, run env_example (one_by_one true ["www"; "api"; "ghost"])
         (start enumerator_example ["www"; "api"; "ghost"]) = Some s
    ∧ discovered (stats (self (shared s)))
      = Z.of_nat (length (discovered_subdomains (self (shared s)))).
Proof.
  eexists. split; [vm_compute; reflexivity|].
  refine (discovered_counts_entries env_example
    "example.com" "wordlists/subdomains.txt" 50 10 None false 0
    ["www"; "api"; "ghost"] _ _).
  exists (one_by_one true ["www"; "api"; "ghost"]). vm_compute. reflexivity.
Defined.

(** X5.  When the candidates have no duplicates and the run starts with
    no discovered entry, no host occurs twice among the discovered
    entries, in any state of the run; each of them is the host of a
    candidate. *)
Theorem discovered_hosts_distinct env o cs s :
  NoDup cs → discovered_subdomains o = [] → reachable env o cs s →
  NoDup (subdomain <$> discovered_subdomains (self (shared s)))
  ∧ (∀ host, host ∈ subdomain <$> discovered_subdomains (self (shared s)) →
       ∃ c, c ∈ cs ∧ host = full_name c (domain o)).
Proof.
  intros Hnd Hnil Hreach. apply reachable_invariant in Hreach as Hinv.
  pose proof (finished_candidates _ _ _ _ Hinv) as Hsub.
  rewrite (inv_discovered_subdomains _ _ _ _ Hinv), Hnil. cbn.
  pose proof (value_hosts_sublist env (domain o) (finished s).*1) as Hsl.
  split.
  - refine (sublist_NoDup _ _ _ Hsl).
    apply (NoDup_fmap_2 (λ c, full_name c (domain o))
             (Inj0 := full_name_inj (domain o))).
    by eapply submseteq_NoDup.
  - intros host Hin. eapply sublist_submseteq, elem_of_submseteq in Hsl; [|exact Hin].
    apply list_elem_of_fmap in Hsl as (c & -> & Hc).
    exists c. split; [|done]. by eapply elem_of_submseteq.
Qed.

Lemma discovered_hosts_distinct_witness :
  ∃ s, run env_all_up (one_by_one true ["www"; "api"])
         (start enumerator_example ["www"; "api"]) = Some s
    ∧ NoDup (subdomain <$> discovered_subdomains (self (shared s))).
Proof.
  eexists. split; [vm_compute; reflexivity|].
  refine (proj1 (discovered_hosts_distinct env_all_up enumerator_example
                   ["www"; "api"] _ _ _ _)).
  - apply NoDup_cons. split; [|apply NoDup_singleton].
    intros Hin. apply list_elem_of_singleton in Hin. discriminate Hin.
  - reflexivity.
  - exists (one_by_one true ["www"; "api"]). vm_compute. reflexivity.
Defined.

(** X11.  Every discovered entry, in any state of a run that started
    with none, is the record of what the environment answered for the
    host of one of the candidates: [ip_address] is the address the
    resolver returned; for each scheme, the entry is marked accessible
    with the status code of the response when the fetch returned, and
    not accessible with no status when it did not; at least one scheme is
    accessible; [discovered_at] is the time read when the probe
    started. *)
Theorem discovered_entry_shape env o cs s r :
  discovered_subdomains o = [] → reachable env o cs s →
  r ∈ discovered_subdomains (self (shared s)) →
  (∃ c, c ∈ cs ∧ subdomain r = full_name c (domain o))
  ∧ (∃ ip, gethostbyname env (subdomain r) = Returns ip ∧ ip_address r = Some ip)
  ∧ match session_get env (http_url (subdomain r)) with
    | Returns resp => http_accessible r = true ∧ http_status r = Some (status_code resp)
    | Raises _ => http_accessible r = false ∧ http_status r = None
    end
  ∧ match session_get env (https_url (subdomain r)) with
    | Returns resp => https_accessible r = true ∧ https_status r = Some (status_code resp)
    | Raises _ => https_accessible r = false ∧ https_status r = None
    end
  ∧ (http_accessible r || https_accessible r) = true
  ∧ discovered_at r = now_isoformat env (subdomain r).
Proof.
  intros Hnil Hreach Hin.
  destruct (discovered_entry env o cs s r Hnil Hreach Hin) as (Hd & Hr & c & Hc & Hsub).
  destruct (found_result_shape env (subdomain r) Hd)
    as (Hdns & [ip Hip] & Hhttp & Hhttps & Hone & Hat).
  cbn zeta in *. rewrite <- Hr in *.
  split; [|split; [|done]].
  - exists c. split; [|done]. apply reachable_invariant in Hreach.
    eapply elem_of_submseteq; [exact Hc|by eapply finished_candidates].
  - exists ip. rewrite Hip in Hdns. done.
Qed.

Lemma discovered_entry_shape_witness :
  ∃ s r, run env_https_only (one_by_one true ["www"]) (start enumerator_example ["www"])
         = Some s
    ∧ discovered_subdomains (self (shared s)) = [r]
    ∧ http_status r = None
    ∧ https_status r = Some 200
    ∧ (http_accessible r || https_accessible r) = true.
Proof.
  do 2 eexists. split; [vm_compute; reflexivity|]. split; [reflexivity|].
  split; [reflexivity|]. split; [reflexivity|].
  refine (proj1 (proj2 (proj2 (proj2 (proj2
    (discovered_entry_shape env_https_only enumerator_example ["www"] _ _ _ _ _)))))).
  - reflexivity.
  - exists (one_by_one true ["www"]). vm_compute. reflexivity.
  - apply elem_of_cons. left. reflexivity.
Defined.

(** X14.  With a single worker that takes the candidates in turn, the
    pool does what a plain loop would: the run reaches its end, and the
    object and the log at the end are those of calling [check_subdomain]
    on the candidates one after the other. *)
Theorem single_worker_is_a_loop env o cs :
  0 < max_threads o →
  ∃ s, run env (one_by_one true cs) (start o cs) = Some s
       ∧ completed s = true
       ∧ shared s = check_in_turn env cs {| self := o; log := [] |}.
Proof.
  intros Hmax. destruct cs as [|c cs]; [by eexists|].
  cbn. unfold max_workers. cbn. rewrite bool_decide_eq_true_2 by lia. cbn.
  pose proof (check_subdomain_steps env c {| self := o; log := [] |}) as Hstep.
  cbn in Hstep. unfold check_subdomain, bind in *.
  destruct (probe_enter env c {| self := o; log := [] |}) as [[[full r]|e] w1] eqn:He;
    rewrite probe_enter_eq in He; [|done]. injection He as <- <- <-.
  cbn [fst snd] in *.
  destruct (probe_body env _ _ _) as [oc w'] eqn:Hb.
  edestruct (one_by_one_in_turn env cs
               {| pending := cs; work_queue := []; workers := [Idle];
                  finished := [] ++ [(c, oc)]; shared := w' |})
    as (s' & Hrun & Hdone & Hsh); [done..|].
  exists s'. split; [exact Hrun|]. split; [exact Hdone|].
  rewrite Hsh. cbn [shared]. by f_equal.
Qed.

Lemma single_worker_is_a_loop_witness :
  ∃ s, run env_example (one_by_one true ["www"; "api"; "ghost"])
         (start enumerator_example ["www"; "api"; "ghost"]) = Some s
    ∧ shared s = check_in_turn env_example ["www"; "api"; "ghost"]
                   {| self := enumerator_example; log := [] |}.
Proof.
  destruct (single_worker_is_a_loop env_example enumerator_example
              ["www"; "api"; "ghost"] eq_refl) as (s & Hrun & _ & Hsh).
  exists s. split; [exact Hrun|exact Hsh].
Defined.

(** X15.  [display_summary] prints each discovered entry once, in
    ascending order of host name; nothing is printed when nothing was
    discovered; and when the entries were already found in ascending
    order of host name they are printed in the order they were found. *)
Theorem display_summary_rows o :
  display_summary o ≡ₚ discovered_subdomains o
  ∧ ascending (subdomain <$> display_summary o)
  ∧ (discovered_subdomains o = [] → display_summary o = [])
  ∧ (ascending (subdomain <$> discovered_subdomains o) →
     display_summary o = discovered_subdomains o).
Proof.
  destruct (display_summary_ascending o) as [Hasc Hperm].
  split; [done|]. split; [done|]. unfold display_summary, ascending. split.
  - by intros ->.
  - intros Hs. destruct (discovered_subdomains o) as [|r l] eqn:Hl; [done|].
    by apply sorted_by_subdomain_fixed.
Qed.

Lemma display_summary_rows_witness :
  display_summary enumerator_example = [].
Proof.
  exact (proj1 (proj2 (proj2 (display_summary_rows enumerator_example))) eq_refl).
Defined.

(** X16.  No candidate that [load_wordlist] returns contains a line
    break: neither a line feed nor a carriage return occurs in it,
    whatever the file holds and whichever of the three line endings it
    uses. *)
Theorem candidates_are_single_lines f l :
  load_wordlist f = Loaded l → ∀ x, x ∈ l → has_line_break x = false.
Proof.
  destruct f as [content| |]; cbn; [|done|].
  - intros [= <-] x Hx.
    apply (proj1 (WordlistFacts.list_of_set_elem_of _ _)) in Hx.
    unfold read_subdomains in Hx.
    apply list_elem_of_fmap in Hx as (line & -> & Hline).
    apply list_elem_of_filter in Hline as [_ Hline].
    by apply (normalized_line_unbroken content).
  - intros [= <-] x Hx. by apply elem_of_nil in Hx.
Qed.

Lemma candidates_are_single_lines_witness :
  ∃ l, load_wordlist (Read_ok wordlist_example) = Loaded l
       ∧ "ghost" ∈ l
       ∧ has_line_break "ghost" = false.
Proof.
  eexists. split; [vm_compute; reflexivity|].
  assert ("ghost" ∈ ["www"; "ghost"; "api"]) as Hin
    by (apply elem_of_cons; right; apply elem_of_cons; left; reflexivity).
  split; [exact Hin|].
  refine (candidates_are_single_lines (Read_ok wordlist_example) _ _ "ghost" Hin).
  vm_compute. reflexivity.
Defined.

End Extras.

(** ** The probe with a console that can fail *)

Module ConsoleFacts.
Import Py Enumerator Spec ProbeFacts.

Ltac unfold_console :=
  unfold Console.probe_body, Console.call_print, Console.handle_exception,
    Console.found_state, Console.network_trace,
    probe_body, call_gethostbyname, call_session_get, try_except, bind,
    with_lock, update_self, emit, modify, gets, lift, ret;
  unfold verdict_of, found_result, unexpected_failure, resolution_failed,
    resolution_fault, resolved, fetched, fetch_failed, fetch_fault,
    succeeded, http_url, https_url.

Ltac console_finish out :=
  cbn;
  repeat match goal with
    | |- context [out ?e] => destruct (out e) as [[]|?] eqn:?; cbn
    | |- context [verbose ?o] => destruct (verbose o); cbn
    end;
  rewrite <- ?app_assoc;
  first [reflexivity | exfalso; cbn in *; congruence].

(** The [try] statement with a console, in closed form. *)
Lemma console_probe_body env out host w :
  let r := blank_result env host in
  Console.probe_body env out host r w
  = match verdict_of env host with
    | Found =>
        match out (Ev_print_found (found_result env host r)) with
        | Returns _ => probe_body env host r w
        | Raises _ => Console.handle_exception out host (Console.found_state env host w)
        end
    | Faulted =>
        Console.handle_exception out host
          {| self := self w; log := log w ++ Console.network_trace env host |}
    | _ => probe_body env host r w
    end.
Proof.
  unfold_console. destruct w as [o lg]. cbn [self log].
  destruct (gethostbyname env host) as [ip|[]]; cbn; try console_finish out;
    destruct (session_get env ("http://" +:+ host)) as [resp1|[]]; cbn;
    try console_finish out;
    destruct (session_get env ("https://" +:+ host)) as [resp2|[]];
    console_finish out.
Qed.

Lemma console_check_subdomain env out sub w :
  let host := full_name sub (domain (self w)) in
  Console.check_subdomain env out sub w
  = Console.probe_body env out host (blank_result env host)
      {| self := set_stats incr_tested (self w); log := log w ++ [Ev_tested] |}.
Proof.
  cbn zeta. unfold Console.check_subdomain, bind. by rewrite probe_enter_eq.
Qed.

(** What the handler does to the object, and how it ends. *)
Lemma handle_exception_self out host st :
  self (Console.handle_exception out host st).2 = set_stats incr_errors (self st).
Proof.
  unfold Console.handle_exception.
  destruct (verbose (self st)); [|done]. by destruct (out _).
Qed.

Lemma handle_exception_outcome out host st :
  (Console.handle_exception out host st).1 = Returns None
  ∨ ∃ e, (Console.handle_exception out host st).1 = Raises e
         ∧ verbose (self st) = true
         ∧ out (Ev_print_error host) = Raises e.
Proof.
  unfold Console.handle_exception.
  destruct (verbose (self st)); [|by left].
  destruct (out (Ev_print_error host)) as [[]|e] eqn:Hout; [by left|].
  right. by exists e.
Qed.

Lemma handle_exception_log out host st :
  ∃ rest, log (Console.handle_exception out host st).2 = log st ++ Ev_errors :: rest
          ∧ Console.network_calls rest = [].
Proof.
  unfold Console.handle_exception. destruct (verbose (self st)).
  - exists [Ev_print_error host].
    destruct (out _); cbn; by rewrite <- app_assoc.
  - exists []. by cbn.
Qed.

(** With a console that works the probe is [Enumerator.probe_body]. *)
Lemma working_console_probe_body env out host w :
  Console.works out →
  Console.probe_body env out host (blank_result env host) w
  = probe_body env host (blank_result env host) w.
Proof.
  intros Hout. rewrite console_probe_body. cbn zeta.
  destruct (verdict_of env host) eqn:Hv; [done| |done|by rewrite Hout].
  rewrite probe_body_eq. cbn zeta.
  unfold Console.handle_exception, probe_value, probe_self, probe_trace,
    Console.network_trace. rewrite Hv, Hout. cbn [self log].
  destruct (verbose (self w)); cbn;
    rewrite <- ?app_assoc; cbn;
    destruct (resolved env host); cbn; try done;
    by destruct (fetch_fault env (http_url host)).
Qed.

Lemma working_console_check_subdomain env out sub w :
  Console.works out →
  Console.check_subdomain env out sub w = check_subdomain env sub w.
Proof.
  intros Hout. rewrite console_check_subdomain. cbn zeta.
  rewrite (working_console_probe_body _ _ _ _ Hout).
  unfold check_subdomain, bind. by rewrite probe_enter_eq.
Qed.

Lemma network_calls_app l1 l2 :
  Console.network_calls (l1 ++ l2)
  = Console.network_calls l1 ++ Console.network_calls l2.
Proof. apply filter_app. Qed.

Lemma network_calls_skip e l :
  Console.is_network_call e = false →
  Console.network_calls (e :: l) = Console.network_calls l.
Proof.
  intros He. unfold Console.network_calls. rewrite filter_cons.
  case_decide; [congruence|done].
Qed.

Lemma network_calls_found r :
  Console.network_calls [Ev_append r; Ev_discovered; Ev_print_found r] = [].
Proof. reflexivity. Qed.

Lemma network_calls_network_trace env host :
  Console.network_calls (Console.network_trace env host)
  = Console.network_trace env host.
Proof.
  unfold Console.network_trace.
  destruct (resolved env host); [|done].
  by destruct (fetch_fault env (http_url host)).
Qed.

Lemma network_calls_probe_trace env host r vb :
  Console.network_calls (probe_trace env host r vb)
  = Console.network_trace env host.
Proof.
  unfold probe_trace, Console.network_trace.
  destruct (resolved env host), (fetch_fault env (http_url host)),
    (verdict_of env host), vb; reflexivity.
Qed.

(** Everything [check_subdomain] does, with any console. *)
Lemma console_check_subdomain_effects env out sub w :
  let host := full_name sub (domain (self w)) in
  let r := blank_result env host in
  let res := Console.check_subdomain env out sub w in
  res.1 = Console.console_outcome env out host (verbose (self w))
  ∧ discovered_subdomains (self res.2)
    = discovered_subdomains (self w) ++ option_list (probe_value env host r)
  ∧ tested (stats (self res.2)) = tested (stats (self w)) + 1
  ∧ discovered (stats (self res.2))
    = discovered (stats (self w)) + Z.of_nat (length (option_list (probe_value env host r)))
  ∧ errors (stats (self res.2))
    = errors (stats (self w)) + (if Console.console_error env out host then 1 else 0)
  ∧ ∃ rest, log res.2 = log w ++ Ev_tested :: rest
            ∧ Console.network_calls rest = Console.network_trace env host.
Proof.
  cbn zeta. rewrite console_check_subdomain. cbn zeta.
  set (host := full_name sub (domain (self w))).
  set (w1 := {| self := set_stats incr_tested (self w); log := log w ++ [Ev_tested] |}).
  rewrite console_probe_body. cbn zeta.
  unfold Console.console_outcome, Console.console_error, probe_value.
  pose proof (verdict_Found env host) as HF.
  pose proof (verdict_Faulted env host) as HE.
  pose proof (probe_body_eq env host w1) as Hold. cbn zeta in Hold.
  unfold probe_value, probe_self in Hold.
  destruct (verdict_of env host) eqn:Hv.
  - (* the name does not resolve *)
    rewrite Hold. cbn.
    destruct (unexpected_failure env host); [by destruct HE as [_ HE]; specialize (HE eq_refl)|].
    destruct (discovers env host); [by destruct HF as [_ HF]; specialize (HF eq_refl)|].
    cbn. rewrite app_nil_r. repeat split; try lia.
    eexists. split; [by rewrite <- app_assoc|]. apply network_calls_probe_trace.
  - (* an unexpected failure *)
    destruct HE as [HE _]. rewrite (HE eq_refl). cbn [orb].
    pose proof (handle_exception_self out host
      {| self := self w1; log := log w1 ++ Console.network_trace env host |}) as Hs.
    destruct (handle_exception_log out host
      {| self := self w1; log := log w1 ++ Console.network_trace env host |})
      as (rest & Hlog & Hnet).
    rewrite Hs, Hlog. cbn. rewrite app_nil_r. split.
    + unfold Console.handle_exception. cbn.
      destruct (verbose (self w)); [|done]. by destruct (out _).
    + repeat split; try lia.
      exists (Console.network_trace env host ++ Ev_errors :: rest).
      split; [by rewrite <- !app_assoc|].
      rewrite network_calls_app, network_calls_network_trace.
      rewrite network_calls_skip by done. by rewrite Hnet, app_nil_r.
  - (* resolved, not reachable *)
    rewrite Hold. cbn.
    destruct (unexpected_failure env host); [by destruct HE as [_ HE]; specialize (HE eq_refl)|].
    destruct (discovers env host); [by destruct HF as [_ HF]; specialize (HF eq_refl)|].
    cbn. rewrite app_nil_r. repeat split; try lia.
    eexists. split; [by rewrite <- app_assoc|]. apply network_calls_probe_trace.
  - (* found *)
    destruct HF as [HF _]. rewrite (HF eq_refl).
    destruct (unexpected_failure env host) eqn:Hu;
      [by destruct HE as [_ HE]; specialize (HE eq_refl)|].
    cbn [orb andb].
    destruct (out (Ev_print_found _)) as [[]|e] eqn:Hout.
    + rewrite Hold. cbn. repeat split; try lia.
      eexists. split; [by rewrite <- app_assoc|]. apply network_calls_probe_trace.
    + pose proof (handle_exception_self out host (Console.found_state env host w1)) as Hs.
      destruct (handle_exception_log out host (Console.found_state env host w1))
        as (rest & Hlog & Hnet).
      rewrite Hs, Hlog. cbn. split.
      * unfold Console.handle_exception. cbn.
        destruct (verbose (self w)); [|done]. by destruct (out (Ev_print_error host)).
      * repeat split; try lia.
        eexists. split; [by rewrite <- !app_assoc|].
        change (Console.network_calls
                  ((Console.network_trace env host
                    ++ [Ev_append (found_result env host (blank_result env host));
                        Ev_discovered;
                        Ev_print_found (found_result env host (blank_result env host))])
                   ++ Ev_errors :: rest)
                = Console.network_trace env host).
        rewrite !network_calls_app, network_calls_network_trace, network_calls_found.
        rewrite network_calls_skip by done. by rewrite Hnet, !app_nil_r.
Qed.

End ConsoleFacts.

(* ===================================================================== *)
(** * Theorems on the probe with a console *)
(* ===================================================================== *)

Module ConsoleClaims.
Import Py Enumerator Spec Pool Driver Scenario.
Import ProbeFacts PoolFacts ConsoleFacts.




End ConsoleClaims.

(* ===================================================================== *)
(** * Further properties of the probe and of a run *)
(* ===================================================================== *)

Module ProbeProperties.
Import Py Enumerator Spec Pool Driver Scenario.
Import ProbeFacts PoolFacts ResultFacts ResultSetFacts ConsoleFacts.

Lemma length_values env dom (l : list string) :
  length (omap (value_of env dom) l)
  = length (filter (λ c, discovers env (full_name c dom) = true) l).
Proof.
  induction l as [|c l IH]; [done|]. cbn [omap list_omap].
  rewrite filter_cons. destruct (value_of env dom c) as [r|] eqn:Hv.
  - apply probe_value_Some in Hv as [Hd _].
    rewrite decide_True by done. cbn. by rewrite IH.
  - apply probe_value_None in Hv. rewrite decide_False by congruence. done.
Qed.

(** X3.  Which hosts a run discovers does not depend on the schedule.
    Two runs over the same candidates from the same object, both at
    their end, have the same [tested] and [discovered] counters, the
    hosts of their discovered entries are the same up to order, and
    [display_summary] prints the same hosts in the same order.  The
    counters are those of the candidates: [tested] has grown by their
    number, [discovered] by the number of those whose host resolves and
    answers a fetch without an unexpected failure. *)
Theorem completed_runs_agree env o cs s1 s2 :
  reachable env o cs s1 → completed s1 = true →
  reachable env o cs s2 → completed s2 = true →
  tested (stats (self (shared s1))) = tested (stats (self (shared s2)))
  ∧ discovered (stats (self (shared s1))) = discovered (stats (self (shared s2)))
  ∧ subdomain <$> discovered_subdomains (self (shared s1))
    ≡ₚ subdomain <$> discovered_subdomains (self (shared s2))
  ∧ subdomain <$> display_summary (self (shared s1))
    = subdomain <$> display_summary (self (shared s2))
  ∧ tested (stats (self (shared s1))) = tested (stats o) + Z.of_nat (length cs)
  ∧ discovered (stats (self (shared s1)))
    = discovered (stats o)
      + Z.of_nat (length (filter (λ c, discovers env (full_name c (domain o)) = true) cs)).
Proof.
  intros Hr1 Hd1 Hr2 Hd2.
  destruct (completed_results env o cs s1 Hr1 Hd1) as (Hp1 & Ht1 & Hdi1 & _).
  destruct (completed_results env o cs s2 Hr2 Hd2) as (Hp2 & Ht2 & Hdi2 & _).
  assert (discovered_subdomains (self (shared s1))
          ≡ₚ discovered_subdomains (self (shared s2))) as Hperm
    by (by rewrite Hp1, Hp2).
  split; [congruence|]. split; [congruence|].
  split; [by apply fmap_Permutation|].
  split; [by apply display_summary_order_independent|].
  split; [done|]. by rewrite Hdi1, length_values.
Qed.

Lemma completed_runs_agree_witness :
  ∃ s1 s2,
    run env_all_up (one_by_one true ["www"; "api"])
      (start enumerator_two_threads ["www"; "api"]) = Some s1
    ∧ run env_all_up (schedule_two_in_flight ++ [Enter 1; Finish 1; Enter 0; Finish 0])
        (start enumerator_two_threads ["www"; "api"]) = Some s2
    ∧ subdomain <$> discovered_subdomains (self (shared s1))
      = ["www.example.com"; "api.example.com"]
    ∧ subdomain <$> discovered_subdomains (self (shared s2))
      = ["api.example.com"; "www.example.com"]
    ∧ subdomain <$> display_summary (self (shared s1))
      = subdomain <$> display_summary (self (shared s2)).
Proof.
  do 2 eexists. split; [vm_compute; reflexivity|].
  split; [vm_compute; reflexivity|]. split; [reflexivity|]. split; [reflexivity|].
  refine (proj1 (proj2 (proj2 (proj2
    (completed_runs_agree env_all_up enumerator_two_threads ["www"; "api"]
       _ _ _ _ _ _))))).
  - exists (one_by_one true ["www"; "api"]). vm_compute. reflexivity.
  - reflexivity.
  - exists (schedule_two_in_flight ++ [Enter 1; Finish 1; Enter 0; Finish 0]).
    vm_compute. reflexivity.
  - reflexivity.
Defined.

(** X4.  The hosts a run has discovered at any point are among the
    hosts it has discovered when it is completed, under any schedule,
    with their multiplicity, and the [discovered] counter of the
    completed run is at least the one of that point.  So the hosts
    [main] prints and saves after an interrupt are hosts of the full
    run. *)
Theorem partial_results_are_final env o cs s s_end :
  reachable env o cs s →
  reachable env o cs s_end → completed s_end = true →
  subdomain <$> discovered_subdomains (self (shared s))
    ⊆+ subdomain <$> discovered_subdomains (self (shared s_end))
  ∧ (∀ host, host ∈ subdomain <$> discovered_subdomains (self (shared s)) →
             host ∈ subdomain <$> discovered_subdomains (self (shared s_end)))
  ∧ discovered (stats (self (shared s))) ≤ discovered (stats (self (shared s_end))).
Proof.
  intros Hreach Hend Hdone. apply reachable_invariant in Hreach as Hinv.
  destruct (completed_results env o cs s_end Hend Hdone) as (Hp & _ & Hd & _).
  pose proof (omap_submseteq (value_of env (domain o)) _ _
                (finished_candidates _ _ _ _ Hinv)) as Hvals.
  assert (subdomain <$> discovered_subdomains (self (shared s))
          ⊆+ subdomain <$> discovered_subdomains (self (shared s_end))) as Hsub.
  { apply fmap_submseteq.
    rewrite Hp, (inv_discovered_subdomains _ _ _ _ Hinv).
    by apply submseteq_skips_l. }
  split; [done|]. split.
  - intros host Hhost. by eapply elem_of_submseteq.
  - rewrite Hd, (inv_discovered _ _ _ _ Hinv).
    apply submseteq_length in Hvals. lia.
Qed.

Lemma partial_results_are_final_witness :
  ∃ s s_end,
    run env_all_up (one_by_one true ["www"]) (start enumerator_example ["www"; "api"])
      = Some s
    ∧ run env_all_up (one_by_one true ["www"; "api"])
        (start enumerator_example ["www"; "api"]) = Some s_end
    ∧ completed s = false
    ∧ subdomain <$> discovered_subdomains (self (shared s))
        ⊆+ subdomain <$> discovered_subdomains (self (shared s_end)).
Proof.
  do 2 eexists. split; [vm_compute; reflexivity|].
  split; [vm_compute; reflexivity|]. split; [reflexivity|].
  refine (proj1 (partial_results_are_final env_all_up enumerator_example
                   ["www"; "api"] _ _ _ _ _)).
  - exists (one_by_one true ["www"]). vm_compute. reflexivity.
  - exists (one_by_one true ["www"; "api"]). vm_compute. reflexivity.
  - reflexivity.
Defined.

(** X12.  A fetch failure of the HTTP request does not end the probe:
    after the resolution and the HTTP request, the HTTPS request is
    made, in that order.  When it is answered, one entry for the host is
    appended, with the HTTP flag unset, no HTTP status and the HTTPS
    flag set, and [discovered] is one more.  When it is not answered,
    nothing is appended and [discovered] stays.  When it ends in a fetch
    failure too, [None] is returned and [errors] stays. *)
Theorem https_tried_after_http_failure env out sub w :
  let host := full_name sub (domain (self w)) in
  let res := Console.check_subdomain env out sub w in
  resolved env host = true → fetch_failed env (http_url host) = true →
  (∃ rest, log res.2 = log w ++ Ev_tested :: rest
           ∧ Console.network_calls rest
             = [Ev_gethostbyname host; Ev_get (http_url host);
                Ev_get (https_url host)])
  ∧ (fetched env (https_url host) = true →
       ∃ r, discovered_subdomains (self res.2) = discovered_subdomains (self w) ++ [r]
            ∧ subdomain r = host
            ∧ http_accessible r = false ∧ http_status r = None
            ∧ https_accessible r = true
            ∧ discovered (stats (self res.2)) = discovered (stats (self w)) + 1)
  ∧ (fetched env (https_url host) = false →
       discovered_subdomains (self res.2) = discovered_subdomains (self w)
       ∧ discovered (stats (self res.2)) = discovered (stats (self w)))
  ∧ (fetch_failed env (https_url host) = true →
       res.1 = Returns None
       ∧ errors (stats (self res.2)) = errors (stats (self w))).
Proof.
  intros host res Hres Hhttp.
  destruct (console_check_subdomain_effects env out sub w)
    as (Hout & Hds & _ & Hd & He & rest & Hlog & Hnet).
  fold host in Hout, Hds, Hd, He, Hnet. fold res in Hout, Hds, Hd, He, Hlog.
  assert (fetch_fault env (http_url host) = false) as Hnofault.
  { revert Hhttp. unfold fetch_failed, fetch_fault.
    destruct (session_get env (http_url host)) as [|[]]; done. }
  split; [|split; [|split]].
  - exists rest. split; [done|].
    rewrite Hnet. unfold Console.network_trace. by rewrite Hres, Hnofault.
  - intros Hhttps.
    assert (discovers env host = true) as Hfound.
    { revert Hres Hhttp Hhttps. unfold_spec.
      destruct (gethostbyname env host); [|done].
      destruct (session_get env ("http://" +:+ host)) as [|[]]; try done.
      destruct (session_get env ("https://" +:+ host)) as [|[]]; done. }
    pose proof (proj2 (probe_value_Some env host (blank_result env host) _)
                  (conj Hfound eq_refl)) as Hval.
    rewrite Hval in Hds, Hd. unfold option_list in Hds, Hd. cbn [option_rect length] in Hds, Hd.
    eexists. split; [exact Hds|]. split; [apply found_result_subdomain|].
    split; [|split; [|split; [|lia]]];
      revert Hres Hhttp Hhttps; unfold_spec;
      (destruct (gethostbyname env host); [|done]);
      (destruct (session_get env ("http://" +:+ host)) as [|[]]; try done);
      (destruct (session_get env ("https://" +:+ host)) as [|[]]; done).
  - intros Hhttps.
    assert (discovers env host = false) as Hnone.
    { revert Hres Hhttp Hhttps. unfold_spec.
      destruct (gethostbyname env host); [|done].
      destruct (session_get env ("http://" +:+ host)) as [|[]]; try done.
      destruct (session_get env ("https://" +:+ host)) as [|[]]; done. }
    apply (probe_value_None env host (blank_result env host)) in Hnone.
    rewrite Hnone in Hds, Hd. unfold option_list in Hds, Hd. cbn [option_rect length] in Hds, Hd.
    rewrite app_nil_r in Hds.
    split; [done|lia].
  - intros Hhttps.
    assert (verdict_of env host = Unreachable) as Hv.
    { revert Hres Hhttp Hhttps. unfold_spec.
      destruct (gethostbyname env host); [|done].
      destruct (session_get env ("http://" +:+ host)) as [|[]]; try done.
      destruct (session_get env ("https://" +:+ host)) as [|[]]; done. }
    assert (unexpected_failure env host = false) as Hu.
    { destruct (unexpected_failure env host) eqn:Hu; [|done].
      apply verdict_Faulted in Hu. congruence. }
    assert (discovers env host = false) as Hnone.
    { destruct (discovers env host) eqn:Hf; [|done].
      apply verdict_Found in Hf. congruence. }
    split.
    + rewrite Hout. unfold Console.console_outcome. by rewrite Hv.
    + rewrite He. unfold Console.console_error. rewrite Hu, Hnone. cbn. lia.
Qed.

Lemma https_tried_after_http_failure_witness :
  ∃ r, discovered_subdomains
         (self (Console.check_subdomain env_https_only Console.closed_console "www"
                  {| self := enumerator_example; log := [] |}).2)
       = [r]
    ∧ subdomain r = "www.example.com"
    ∧ http_accessible r = false ∧ https_accessible r = true.
Proof.
  destruct (proj1 (proj2 (https_tried_after_http_failure env_https_only
                     Console.closed_console "www"
                     {| self := enumerator_example; log := [] |}
                     eq_refl eq_refl)) eq_refl)
    as (r & Hds & Hsub & Hhttp & _ & Hhttps & _).
  exists r. split; [exact Hds|]. split; [exact Hsub|]. split; [exact Hhttp|exact Hhttps].
Defined.

(** X13.  The network calls of one probe, in order: the resolution of
    the host; then, when it resolves, the request to the [http://] URL
    of the host; then, unless that request ended in an unexpected
    failure, the request to its [https://] URL.  [check_subdomain] makes
    no other call of the resolver or of the session, so it makes at most
    three calls, no two of them the same, whatever the console does. *)
Theorem probe_network_calls env out sub w :
  let host := full_name sub (domain (self w)) in
  ∃ rest,
    log (Console.check_subdomain env out sub w).2 = log w ++ Ev_tested :: rest
    ∧ Console.network_calls rest
      = Ev_gethostbyname host
        :: (if resolved env host then
              Ev_get (http_url host)
              :: (if fetch_fault env (http_url host) then []
                  else [Ev_get (https_url host)])
            else [])
    ∧ (length (Console.network_calls rest) ≤ 3)%nat
    ∧ NoDup (Console.network_calls rest).
Proof.
  intros host.
  destruct (console_check_subdomain_effects env out sub w)
    as (_ & _ & _ & _ & _ & rest & Hlog & Hnet).
  fold host in Hnet. exists rest. split; [done|]. split; [done|].
  rewrite Hnet. unfold Console.network_trace.
  destruct (resolved env host); [destruct (fetch_fault env (http_url host))|];
    (split; [cbn; lia|]); repeat constructor;
    rewrite ?elem_of_cons, ?elem_of_nil; unfold http_url, https_url;
    intros H; repeat destruct H as [H|H]; try done;
    injection H as H; by apply url_ne in H.
Qed.

(** X17.  The [verbose] flag changes neither the counters nor the
    discovered entries, whatever the console does.  With the flag unset
    [check_subdomain] returns a value.  With the flag set it ends the
    same way, unless the message of the handler cannot be written: then
    the exception of that write leaves [check_subdomain]. *)
Theorem verbose_only_prints env out sub o lg vb :
  let host := full_name sub (domain o) in
  let quiet := Console.check_subdomain env out sub
                 {| self := with_verbose false o; log := lg |} in
  let loud := Console.check_subdomain env out sub
                {| self := with_verbose vb o; log := lg |} in
  tested (stats (self loud.2)) = tested (stats (self quiet.2))
  ∧ discovered (stats (self loud.2)) = discovered (stats (self quiet.2))
  ∧ errors (stats (self loud.2)) = errors (stats (self quiet.2))
  ∧ discovered_subdomains (self loud.2) = discovered_subdomains (self quiet.2)
  ∧ (∃ v, quiet.1 = Returns v)
  ∧ (loud.1 = quiet.1
     ∨ ∃ e, vb = true ∧ out (Ev_print_error host) = Raises e
            ∧ loud.1 = Raises e).
Proof.
  intros host quiet loud.
  destruct (console_check_subdomain_effects env out sub
              {| self := with_verbose false o; log := lg |})
    as (Hq & Hqds & Hqt & Hqd & Hqe & _).
  destruct (console_check_subdomain_effects env out sub
              {| self := with_verbose vb o; log := lg |})
    as (Hl & Hlds & Hlt & Hld & Hle & _).
  change (full_name sub (domain (self {| self := with_verbose false o; log := lg |})))
    with host in *.
  change (full_name sub (domain (self {| self := with_verbose vb o; log := lg |})))
    with host in *.
  fold quiet in Hq, Hqds, Hqt, Hqd, Hqe. fold loud in Hl, Hlds, Hlt, Hld, Hle.
  cbn [self with_verbose stats discovered_subdomains verbose] in *.
  split; [congruence|]. split; [congruence|]. split; [congruence|].
  split; [congruence|].
  rewrite Hq, Hl. unfold Console.console_outcome. split.
  - destruct (verdict_of env host); eauto.
    destruct (out (Ev_print_found _)); eauto.
  - destruct vb; [|by left].
    destruct (out (Ev_print_error host)) as [[]|e] eqn:Herr.
    + left. destruct (verdict_of env host); try done.
    + destruct (verdict_of env host); eauto.
      destruct (out (Ev_print_found _)); eauto.
Qed.

End ProbeProperties.

(* ===================================================================== *)
(** * The candidate list of [load_wordlist], on Unicode text *)
(* ===================================================================== *)

Module UnicodeFacts.
Import Unicode.

Local Open Scope N_scope.

Section Tables.
Variable decode : list Byte.byte → text.
Variable isspace : char → bool.
Variable to_lower_full : char → text.
Variable final_sigma : text → text → bool.
Hypothesis tables : case_tables isspace to_lower_full.

Local Abbreviation lower_from := (lower_from to_lower_full final_sigma).
Local Abbreviation lower := (lower to_lower_full final_sigma).
Local Abbreviation lstrip := (lstrip isspace).
Local Abbreviation rstrip := (rstrip isspace).
Local Abbreviation strip := (strip isspace).
Local Abbreviation starts_with_space := (starts_with_space isspace).
Local Abbreviation ends_with_space := (ends_with_space isspace).
Local Abbreviation mapping := (mapping to_lower_full final_sigma).
Local Abbreviation stable := (stable to_lower_full).

Lemma lower_from_cons before c rest :
  lower_from before (c :: rest)
  = mapping before c rest ++ lower_from (before ++ [c]) rest.
Proof. reflexivity. Qed.

Lemma mapping_nonempty before c rest : mapping before c rest ≠ [].
Proof.
  unfold mapping. destruct (c =? CAPITAL_SIGMA); [done|].
  apply (lower_nonempty _ _ tables).
Qed.

Lemma mapping_stable before c rest : Forall stable (mapping before c rest).
Proof.
  unfold mapping. destruct (c =? CAPITAL_SIGMA).
  - apply Forall_singleton.
    destruct (sigma_stable _ _ tables) as [Hf Hs].
    destruct (final_sigma before rest); (split; [done|assumption]).
  - apply Forall_forall. intros d Hd. by apply (lower_stable _ _ tables c).
Qed.

Lemma mapping_nonspace before c rest :
  isspace c = false → Forall (λ d, isspace d = false) (mapping before c rest).
Proof.
  intros Hc. unfold mapping. destruct (c =? CAPITAL_SIGMA).
  - apply Forall_singleton.
    destruct (sigma_nonspace _ _ tables) as [Hf Hs].
    by destruct (final_sigma before rest).
  - apply Forall_forall. intros d Hd. by apply (lower_nonspace _ _ tables c).
Qed.

Lemma lower_from_stable before s : Forall stable (lower_from before s).
Proof.
  revert before. induction s as [|c s IH]; intros before; [constructor|].
  rewrite lower_from_cons. apply Forall_app. split; [apply mapping_stable|apply IH].
Qed.

Lemma lower_from_fixed before s : Forall stable s → lower_from before s = s.
Proof.
  intros Hs. revert before. induction Hs as [|c s [Hc Hm] Hs IH]; intros before.
  - reflexivity.
  - rewrite lower_from_cons, IH. unfold mapping.
    apply N.eqb_neq in Hc. by rewrite Hc, Hm.
Qed.

(** Lowering twice is lowering once. *)
Lemma text_lower_idem s : lower (lower s) = lower s.
Proof. apply lower_from_fixed, lower_from_stable. Qed.

Lemma lower_from_nonempty before s : s ≠ [] → lower_from before s ≠ [].
Proof.
  destruct s as [|c s]; [done|]. intros _. rewrite lower_from_cons.
  pose proof (mapping_nonempty before c s) as Hm.
  destruct (mapping before c s); [done|]. done.
Qed.

Lemma starts_with_space_lower_from before s :
  starts_with_space s = false → starts_with_space (lower_from before s) = false.
Proof.
  destruct s as [|c s]; [done|]. cbn [Unicode.starts_with_space]. intros Hc.
  rewrite lower_from_cons.
  pose proof (mapping_nonempty before c s) as Hne.
  pose proof (mapping_nonspace before c s Hc) as Hns.
  destruct (mapping before c s) as [|d m]; [done|].
  by apply Forall_cons in Hns as [Hd _].
Qed.

Lemma ends_with_space_app a t :
  t ≠ [] → ends_with_space (a ++ t) = ends_with_space t.
Proof.
  intros Ht. induction a as [|c a IH]; [done|].
  cbn [app Unicode.ends_with_space]. rewrite IH.
  destruct (a ++ t) eqn:Heq; [|done].
  apply app_eq_nil in Heq as [_ ?]. done.
Qed.

Lemma ends_with_space_nonspace t :
  Forall (λ d, isspace d = false) t → ends_with_space t = false.
Proof.
  induction 1 as [|c t Hc Ht IH]; [done|].
  cbn [Unicode.ends_with_space]. by destruct t.
Qed.

Lemma ends_with_space_lower_from before s :
  ends_with_space s = false → ends_with_space (lower_from before s) = false.
Proof.
  revert before. induction s as [|c s IH]; intros before; [done|].
  cbn [Unicode.ends_with_space]. rewrite lower_from_cons. destruct s as [|c' s].
  - intros Hc. cbn [Unicode.lower_from]. rewrite app_nil_r.
    by apply ends_with_space_nonspace, mapping_nonspace.
  - intros Hs. rewrite ends_with_space_app.
    + by apply IH.
    + by apply lower_from_nonempty.
Qed.

Lemma text_starts_with_space_lstrip s : starts_with_space (lstrip s) = false.
Proof.
  induction s as [|c s IH]; simpl; [done|].
  destruct (isspace c) eqn:Hc; [done|]. simpl. by rewrite Hc.
Qed.

Lemma text_ends_with_space_rstrip s : ends_with_space (rstrip s) = false.
Proof.
  induction s as [|c s IH]; simpl; [done|].
  destruct (rstrip s) as [|d r] eqn:Hr.
  - destruct (isspace c) eqn:Hc; simpl; [done|]. by rewrite Hc.
  - exact IH.
Qed.

Lemma text_ends_with_space_lstrip s :
  ends_with_space s = false → ends_with_space (lstrip s) = false.
Proof.
  induction s as [|c s IH]; simpl; [done|]. intros H.
  destruct (isspace c) eqn:Hc.
  - apply IH. destruct s; [done|exact H].
  - destruct s; [simpl; exact Hc|exact H].
Qed.

Lemma text_strip_clean s :
  starts_with_space (strip s) = false ∧ ends_with_space (strip s) = false.
Proof.
  unfold Unicode.strip. split.
  - apply text_starts_with_space_lstrip.
  - apply text_ends_with_space_lstrip, text_ends_with_space_rstrip.
Qed.

Lemma text_rstrip_fixed s : ends_with_space s = false → rstrip s = s.
Proof.
  induction s as [|c s IH]; simpl; [done|]. intros H.
  destruct s as [|d s].
  - simpl. by rewrite H.
  - rewrite (IH H). done.
Qed.

Lemma text_lstrip_fixed s : starts_with_space s = false → lstrip s = s.
Proof. destruct s as [|c s]; simpl; [done|]. by intros ->. Qed.

Lemma text_strip_fixed s :
  starts_with_space s = false → ends_with_space s = false → strip s = s.
Proof.
  intros H1 H2. unfold Unicode.strip. rewrite (text_rstrip_fixed s H2).
  by apply text_lstrip_fixed.
Qed.

(** A line that is not blank gives a candidate. *)
Lemma text_candidate_normalized line :
  truthy (strip line) = true →
  candidate isspace to_lower_full final_sigma (lower (strip line)).
Proof.
  intros Hne.
  assert (starts_with_space (lower (strip line)) = false) as Hs
    by (apply starts_with_space_lower_from, text_strip_clean).
  assert (ends_with_space (lower (strip line)) = false) as He
    by (apply ends_with_space_lower_from, text_strip_clean).
  split.
  - apply lower_from_nonempty. by destruct (strip line).
  - apply text_lower_idem.
  - exact Hs.
  - exact He.
  - by apply text_strip_fixed.
Qed.

Lemma text_read_subdomains_candidates content :
  Forall (candidate isspace to_lower_full final_sigma)
    (read_subdomains isspace to_lower_full final_sigma content).
Proof.
  unfold read_subdomains. apply Forall_fmap, Forall_forall.
  intros line Hin. apply list_elem_of_filter in Hin as [Hne _].
  apply text_candidate_normalized. by apply Is_true_eq_true.
Qed.

End Tables.

Lemma text_list_of_set_elem_of l x : x ∈ list_of_set l ↔ x ∈ l.
Proof. unfold list_of_set. by rewrite elem_of_elements, elem_of_list_to_set. Qed.

Lemma text_list_of_set_NoDup l : NoDup (list_of_set l).
Proof. unfold list_of_set. apply NoDup_elements. Qed.

End UnicodeFacts.

Module WordlistClaims.
Import Unicode UnicodeFacts.

Local Open Scope N_scope.

Lemma isupper_latin1_spec c :
  isupper_latin1 c = true
  ↔ (65 ≤ c ∧ c ≤ 90) ∨ (192 ≤ c ∧ c ≤ 214) ∨ (216 ≤ c ∧ c ≤ 222).
Proof.
  unfold isupper_latin1.
  rewrite !orb_true_iff, !andb_true_iff, !N.leb_le. tauto.
Qed.

Lemma isspace_latin1_spec c :
  isspace_latin1 c = true
  ↔ (9 ≤ c ∧ c ≤ 13) ∨ (28 ≤ c ∧ c ≤ 32) ∨ c = 133 ∨ c = 160.
Proof.
  unfold isspace_latin1.
  rewrite !orb_true_iff, !andb_true_iff, !N.leb_le, !N.eqb_eq. tauto.
Qed.

Lemma to_lower_latin1_cases c d :
  d ∈ to_lower_latin1 c →
  (isupper_latin1 c = true ∧ d = c + 32)
  ∨ (isupper_latin1 c = false ∧ c = CAPITAL_SIGMA ∧ d = SMALL_SIGMA)
  ∨ (isupper_latin1 c = false ∧ c ≠ CAPITAL_SIGMA ∧ d = c).
Proof.
  unfold to_lower_latin1. destruct (isupper_latin1 c).
  - intros ->%list_elem_of_singleton. by left.
  - destruct (N.eqb_spec c CAPITAL_SIGMA);
      intros ->%list_elem_of_singleton; right; [left|right]; done.
Qed.

Lemma isupper_latin1_false c :
  ¬ ((65 ≤ c ∧ c ≤ 90) ∨ (192 ≤ c ∧ c ≤ 214) ∨ (216 ≤ c ∧ c ≤ 222)) →
  isupper_latin1 c = false.
Proof.
  intros H. destruct (isupper_latin1 c) eqn:Hu; [|done].
  by apply isupper_latin1_spec in Hu.
Qed.

Lemma isspace_latin1_false c :
  ¬ ((9 ≤ c ∧ c ≤ 13) ∨ (28 ≤ c ∧ c ≤ 32) ∨ c = 133 ∨ c = 160) →
  isspace_latin1 c = false.
Proof.
  intros H. destruct (isspace_latin1 c) eqn:Hu; [|done].
  by apply isspace_latin1_spec in Hu.
Qed.

(** The tables of the Latin-1 range have what the properties need. *)
Lemma latin1_case_tables : case_tables isspace_latin1 to_lower_latin1.
Proof.
  split.
  - intros c. unfold to_lower_latin1.
    destruct (isupper_latin1 c); [done|]. by destruct (c =? CAPITAL_SIGMA).
  - intros c d [(Hu & ->)|[(Hu & -> & ->)|(Hu & Hc & ->)]]%to_lower_latin1_cases.
    + apply isupper_latin1_spec in Hu. unfold CAPITAL_SIGMA.
      split; [lia|]. unfold to_lower_latin1.
      rewrite isupper_latin1_false by lia.
      assert ((c + 32 =? CAPITAL_SIGMA) = false) as ->
        by (apply N.eqb_neq; unfold CAPITAL_SIGMA; lia).
      done.
    + done.
    + split; [done|]. unfold to_lower_latin1. rewrite Hu.
      apply N.eqb_neq in Hc. by rewrite Hc.
  - done.
  - intros c d Hc [(Hu & ->)|[(Hu & -> & ->)|(Hu & _ & ->)]]%to_lower_latin1_cases.
    + apply isupper_latin1_spec in Hu. apply isspace_latin1_false. lia.
    + done.
    + done.
  - done.
Qed.



End WordlistClaims.
